(** * CorporateGovernanceUltimate: the governance ledger and its front-end

    A shallow embedding of the Solidity contract presented in
    [HELLO_FHEVM_TUTORIAL.md] (chapter 4) and of the [handleVote] action
    of the voting page ([ProposalsPage.tsx]), with the properties of the
    voting mechanism proved over it.

    Unsigned integers are modelled as [Z].  The contract is compiled with
    [pragma solidity ^0.8.20], so arithmetic is checked: an overflow does
    not wrap, it aborts the call with [Panic(0x11)]. *)

From Stdlib Require Import ZArith Ascii String List Lia Bool.
From stdpp Require Import gmap strings list fin_maps.

Local Open Scope Z_scope.

(** ** Machine integers *)

Definition MAX_UINT8 : Z := 2 ^ 8 - 1.
Definition MAX_UINT32 : Z := 2 ^ 32 - 1.
Definition MAX_UINT256 : Z := 2 ^ 256 - 1.

Definition is_uint (max x : Z) : bool := (0 <=? x) && (x <=? max).

(** Solidity's time unit [1 days], in seconds. *)
Definition ONE_DAY : Z := 86400.

(** ** Outcome of a call

    A call either returns or aborts as a whole.  An abort carries the
    reason string of a failed [require], a [Panic] code raised by checked
    arithmetic (0x11) or by an array access out of bounds (0x32), or
    nothing when the ABI decoder rejects an argument that does not fit its
    declared type. *)

Inductive Failure : Type :=
| Reason (msg : string)
| Panic (code : Z)
| BadCalldata.

Inductive Result (A : Type) : Type :=
| Ok (a : A)
| Revert (f : Failure).

Arguments Ok {A} a.
Arguments Revert {A} f.

#[global] Instance Result_ret : MRet Result := fun A a => Ok a.

#[global] Instance Result_bind : MBind Result := fun A B k m =>
  match m with
  | Ok a => k a
  | Revert f => Revert f
  end.

Definition require (cond : bool) (msg : string) : Result unit :=
  if cond then Ok tt else Revert (Reason msg).

(** [a + b] in a type of maximum [max], as Solidity 0.8 computes it. *)
Definition checked_add (max a b : Z) : Result Z :=
  if a + b <=? max then Ok (a + b) else Revert (Panic 17).

Definition checked_mul (max a b : Z) : Result Z :=
  if a * b <=? max then Ok (a * b) else Revert (Panic 17).

(** ** Data structures *)

(** [struct Shareholder]; its flag is [sh_active] here because [active]
    is also a field of [Proposal]. *)
Record Shareholder : Type := mkShareholder {
  sh_active : bool;
  shares : Z;
  sh_name : string
}.

(** What a mapping returns for a key never written. *)
Definition no_shareholder : Shareholder := mkShareholder false 0 EmptyString.

Record Proposal : Type := mkProposal {
  pType : Z;
  title : string;
  proposer : Z;
  deadline : Z;
  active : bool;
  forVotes : Z;
  againstVotes : Z;
  threshold : Z
}.

Inductive Event : Type :=
| CompanyInit (name : string)
| ShareholderAdd (addr : Z)
| ProposalAdd (id : Z)
| VoteAdd (id voter : Z).

(** The contract's storage, with the log of the events it has emitted.
    Addresses are numbers.  [voted] is the two-level mapping
    [voted[id][address]], keyed here by the pair. *)
Record State : Type := mkState {
  owner : Z;
  boardMembers : gmap Z bool;
  initialized : bool;
  companyName : string;
  totalShares : Z;
  shareholders : gmap Z Shareholder;
  proposals : list Proposal;
  voted : gmap (Z * Z) bool;
  events : list Event
}.

Definition shareholder_of (st : State) (a : Z) : Shareholder :=
  default no_shareholder (shareholders st !! a).

Definition has_voted (st : State) (id a : Z) : bool :=
  default false (voted st !! (id, a)).

(** Proposal ids are 1-indexed: id [k] names [proposals[k - 1]]. *)
Definition get_proposal (st : State) (id : Z) : option Proposal :=
  if (0 <? id) && (id <=? Z.of_nat (length (proposals st)))
  then proposals st !! Z.to_nat (id - 1)
  else None.

(** *** Storage writes *)

Definition set_company (st : State) (name : string) (total : Z) : State :=
  mkState (owner st) (boardMembers st) true name total
          (shareholders st) (proposals st) (voted st) (events st).

Definition set_board (st : State) (a : Z) : State :=
  mkState (owner st) (<[a := true]> (boardMembers st)) (initialized st)
          (companyName st) (totalShares st)
          (shareholders st) (proposals st) (voted st) (events st).

Definition set_shareholder (st : State) (a : Z) (sh : Shareholder) : State :=
  mkState (owner st) (boardMembers st) (initialized st)
          (companyName st) (totalShares st)
          (<[a := sh]> (shareholders st)) (proposals st) (voted st) (events st).

Definition push_proposal (st : State) (p : Proposal) : State :=
  mkState (owner st) (boardMembers st) (initialized st)
          (companyName st) (totalShares st)
          (shareholders st) (proposals st ++ [p]) (voted st) (events st).

Definition set_proposal (st : State) (i : nat) (p : Proposal) : State :=
  mkState (owner st) (boardMembers st) (initialized st)
          (companyName st) (totalShares st)
          (shareholders st) (<[i := p]> (proposals st)) (voted st) (events st).

Definition set_voted (st : State) (id a : Z) : State :=
  mkState (owner st) (boardMembers st) (initialized st)
          (companyName st) (totalShares st)
          (shareholders st) (proposals st) (<[(id, a) := true]> (voted st))
          (events st).

Definition emit (st : State) (e : Event) : State :=
  mkState (owner st) (boardMembers st) (initialized st)
          (companyName st) (totalShares st)
          (shareholders st) (proposals st) (voted st) (events st ++ [e]).

Definition add_for (p : Proposal) (v : Z) : Proposal :=
  mkProposal (pType p) (title p) (proposer p) (deadline p) (active p)
             v (againstVotes p) (threshold p).

Definition add_against (p : Proposal) (v : Z) : Proposal :=
  mkProposal (pType p) (title p) (proposer p) (deadline p) (active p)
             (forVotes p) v (threshold p).

Definition close (p : Proposal) : Proposal :=
  mkProposal (pType p) (title p) (proposer p) (deadline p) false
             (forVotes p) (againstVotes p) (threshold p).

(** [_type == 2 ? 75 : (_type == 1 ? 60 : 50)] *)
Definition threshold_of_type (_type : Z) : Z :=
  if _type =? 2 then 75 else if _type =? 1 then 60 else 50.

(** ** Entry points *)

Section Ledger.

(** The access modifiers [onlyOwner] (OpenZeppelin's [Ownable]),
    [onlyBoard] and [onlySharehol] are declared outside the chapter that
    gives the entry points.  Each is taken as a check on the storage and
    the caller that lets the call proceed or aborts it; everything below
    holds for whatever these checks are. *)
Variable onlyOwner : State → Z → Result unit.
Variable onlyBoard : State → Z → Result unit.
Variable onlySharehol : State → Z → Result unit.

(** Nor is it given who may name a board member, or who may finalize
    which proposal and when: [canAddBoard st sender] and
    [canFinalize st sender now id] stand for those checks. *)
Variable canAddBoard : State → Z → Result unit.
Variable canFinalize : State → Z → Z → Z → Result unit.

Definition initCompany (st : State) (sender : Z)
    (_name : string) (_shares : Z) : Result State :=
  onlyOwner st sender;;
  require (negb (initialized st)) "Already initialized";;
  let st := set_company st _name _shares in
  mret (emit st (CompanyInit _name)).

Definition addShareholder (st : State) (sender : Z)
    (_addr _shares : Z) (_name : string) : Result State :=
  onlyBoard st sender;;
  let st := set_shareholder st _addr (mkShareholder true _shares _name) in
  mret (emit st (ShareholderAdd _addr)).

Definition createProposal (st : State) (sender now : Z)
    (_type : Z) (_title : string) (_days : Z) : Result (State * Z) :=
  onlyBoard st sender;;
  id ← checked_add MAX_UINT256 (Z.of_nat (length (proposals st))) 1;
  let threshold := threshold_of_type _type in
  secs ← checked_mul MAX_UINT256 _days ONE_DAY;
  deadline ← checked_add MAX_UINT256 now secs;
  let st := push_proposal st
    {| pType := _type; title := _title; proposer := sender;
       deadline := deadline; active := true;
       forVotes := 0; againstVotes := 0; threshold := threshold |} in
  mret (emit st (ProposalAdd id), id).

Definition vote (st : State) (sender now : Z)
    (_id _choice : Z) : Result State :=
  onlySharehol st sender;;
  require ((0 <? _id) && (_id <=? Z.of_nat (length (proposals st))))
          "Invalid proposal ID";;
  require (negb (has_voted st _id sender))
          "Already voted on this proposal";;
  let i := Z.to_nat (_id - 1) in
  match proposals st !! i with
  | None => Revert (Panic 50)
  | Some p =>
    require (active p && (now <=? deadline p)) "Voting period ended";;
    let st := set_voted st _id sender in
    let shares := shares (shareholder_of st sender) in
    p' ← (if _choice =? 1 then
            v ← checked_add MAX_UINT32 (forVotes p) shares;
            mret (add_for p v)
          else if _choice =? 2 then
            v ← checked_add MAX_UINT32 (againstVotes p) shares;
            mret (add_against p v)
          else mret p);
    let st := set_proposal st i p' in
    mret (emit st (VoteAdd _id sender))
  end.

(** Modelled from the spec: [addBoard(address)] is called by the
    tutorial's test scenario and listed among the entry points, but its
    body is not given.  A board member is an "address authorized to
    register shareholders and create proposals"; the call records the
    address as one. *)
Definition addBoard (st : State) (sender : Z) (_addr : Z) : Result State :=
  canAddBoard st sender;;
  mret (set_board st _addr).

(** Modelled from the spec: [finalize(uint256)] is listed among the
    entry points but its body is not given.  A proposal is "mutated only
    by vote accumulation and a terminal finalize step" and "accepts votes
    only while active": finalizing closes the proposal to voting and
    touches nothing else. *)
Definition finalize (st : State) (sender now : Z) (_id : Z) : Result State :=
  canFinalize st sender now _id;;
  require ((0 <? _id) && (_id <=? Z.of_nat (length (proposals st))))
          "Invalid proposal ID";;
  let i := Z.to_nat (_id - 1) in
  match proposals st !! i with
  | None => Revert (Panic 50)
  | Some p => mret (set_proposal st i (close p))
  end.

End Ledger.

(** Modelled from the spec: the "for-percentage" that [getResults]
    compares with the threshold is not defined by any code shown.  It is
    the percentage of the votes cast for or against that are for: the
    tutorial's scenario counts 50000 for and 30000 against as "62.5%
    approval". *)
Definition for_percentage (p : Proposal) : Z :=
  forVotes p * 100 / (forVotes p + againstVotes p).

(** Modelled from the spec: [getResults(uint256) → (uint32, uint32, bool)]
    is listed among the entry points but its body is not given.  It "reads
    final tallies and compares the for-percentage against the stored
    threshold to determine pass/fail", the threshold being the "minimum
    for-percentage required for a proposal to pass".  A proposal nobody
    voted for or against does not pass. *)
Definition getResults (st : State) (_id : Z) : Result (Z * Z * bool) :=
  require ((0 <? _id) && (_id <=? Z.of_nat (length (proposals st))))
          "Invalid proposal ID";;
  match proposals st !! Z.to_nat (_id - 1) with
  | None => Revert (Panic 50)
  | Some p =>
    let passed := (0 <? forVotes p + againstVotes p)
                  && (threshold p <=? for_percentage p) in
    mret (forVotes p, againstVotes p, passed)
  end.

(** ** Transactions

    The ledger changes only through calls of its entry points, one at a
    time; a call that aborts leaves the storage as it was. *)

Inductive Call : Type :=
| InitCompany (_name : string) (_shares : Z)
| AddBoard (_addr : Z)
| AddShareholder (_addr _shares : Z) (_name : string)
| CreateProposal (_type : Z) (_title : string) (_days : Z)
| Vote (_id _choice : Z)
| Finalize (_id : Z).

Definition MAX_ADDRESS : Z := 2 ^ 160 - 1.

(** The arguments fit the types of the signature:
    [initCompany(string, uint256)], [addShareholder(address, uint32, string)],
    [addBoard(address)], [createProposal(uint8, string, uint256)],
    [vote(uint256, uint8)], [finalize(uint256)]. *)
Definition well_typed (c : Call) : bool :=
  match c with
  | InitCompany _ s => is_uint MAX_UINT256 s
  | AddBoard a => is_uint MAX_ADDRESS a
  | AddShareholder a s _ => is_uint MAX_ADDRESS a && is_uint MAX_UINT32 s
  | CreateProposal t _ d => is_uint MAX_UINT8 t && is_uint MAX_UINT256 d
  | Vote i c => is_uint MAX_UINT256 i && is_uint MAX_UINT8 c
  | Finalize i => is_uint MAX_UINT256 i
  end.

Record Tx : Type := mkTx {
  tx_sender : Z;
  tx_time : Z;
  tx_call : Call
}.

(** One vote that went through: the proposal, the voter, the choice and
    the voter's share count when the vote was cast.  The contract keeps no
    such record; it is read off the history of calls. *)
Record Ballot : Type := mkBallot {
  b_id : Z;
  b_voter : Z;
  b_choice : Z;
  b_weight : Z
}.

Section Transactions.

Variable onlyOwner onlyBoard onlySharehol canAddBoard : State → Z → Result unit.
Variable canFinalize : State → Z → Z → Z → Result unit.

Definition execute (st : State) (tx : Tx) : Result State :=
  let sender := tx_sender tx in
  let now := tx_time tx in
  if negb (well_typed (tx_call tx)) then Revert BadCalldata else
  match tx_call tx with
  | InitCompany n s => initCompany onlyOwner st sender n s
  | AddBoard a => addBoard canAddBoard st sender a
  | AddShareholder a s n => addShareholder onlyBoard st sender a s n
  | CreateProposal t ti d =>
      r ← createProposal onlyBoard st sender now t ti d; mret (fst r)
  | Vote i c => vote onlySharehol st sender now i c
  | Finalize i => finalize canFinalize st sender now i
  end.

Definition apply_tx (st : State) (tx : Tx) : State :=
  match execute st tx with
  | Ok st' => st'
  | Revert _ => st
  end.

Fixpoint run (st : State) (txs : list Tx) : State :=
  match txs with
  | [] => st
  | tx :: txs' => run (apply_tx st tx) txs'
  end.

(** The id a [createProposal] transaction returns, when it returns. *)
Definition created (st : State) (tx : Tx) : option Z :=
  match tx_call tx with
  | CreateProposal t ti d =>
      if well_typed (tx_call tx) then
        match createProposal onlyBoard st (tx_sender tx) (tx_time tx) t ti d with
        | Ok r => Some (snd r)
        | Revert _ => None
        end
      else None
  | _ => None
  end.

Fixpoint created_ids (st : State) (txs : list Tx) : list Z :=
  match txs with
  | [] => []
  | tx :: txs' =>
      match created st tx with
      | Some id => id :: created_ids (apply_tx st tx) txs'
      | None => created_ids (apply_tx st tx) txs'
      end
  end.

(** The ballot a [vote] transaction casts, when it goes through. *)
Definition ballot_of (st : State) (tx : Tx) : option Ballot :=
  match tx_call tx, execute st tx with
  | Vote i c, Ok _ =>
      Some (mkBallot i (tx_sender tx) c
                     (shares (shareholder_of st (tx_sender tx))))
  | _, _ => None
  end.

Fixpoint ballots (st : State) (txs : list Tx) : list Ballot :=
  match txs with
  | [] => []
  | tx :: txs' =>
      match ballot_of st tx with
      | Some b => b :: ballots (apply_tx st tx) txs'
      | None => ballots (apply_tx st tx) txs'
      end
  end.

End Transactions.

(** The storage right after deployment by [o], with the board members the
    constructor registers. *)
Definition deployed (o : Z) (board : gmap Z bool) : State :=
  mkState o board false EmptyString 0 ∅ [] ∅ [].

(** *** The access checks of the spec

    The theorems hold for any access checks.  The concrete scenarios
    below need some: these follow the spec, which calls [initCompany]
    owner-restricted, [addShareholder] and [createProposal]
    board-restricted and [vote] shareholder-restricted, an unauthorized
    caller being turned away with a reason string. *)
Module Access.

(** Modelled from the spec: the modifier [onlyOwner] is not given.  The
    caller is the owner. *)
Definition onlyOwner (st : State) (a : Z) : Result unit :=
  require (a =? owner st) "Not owner".

(** Modelled from the spec: the modifier [onlyBoard] is not given.  The
    caller is a registered board member, an "address authorized to
    register shareholders and create proposals". *)
Definition onlyBoard (st : State) (a : Z) : Result unit :=
  require (default false (boardMembers st !! a)) "Not board member".

(** Modelled from the spec: the modifier [onlySharehol] is not given.  The
    caller is a registered shareholder, an "address eligible to vote". *)
Definition onlySharehol (st : State) (a : Z) : Result unit :=
  require (sh_active (shareholder_of st a)) "Not shareholder".

(** Modelled from the spec: who may call [finalize] is not given; board
    members may, here. *)
Definition canFinalize (st : State) (a now id : Z) : Result unit :=
  onlyBoard st a.

Definition run : State → list Tx → State :=
  run onlyOwner onlyBoard onlySharehol onlyOwner canFinalize.

Definition ballots : State → list Tx → list Ballot :=
  ballots onlyOwner onlyBoard onlySharehol onlyOwner canFinalize.

Definition created_ids : State → list Tx → list Z :=
  created_ids onlyOwner onlyBoard onlySharehol onlyOwner canFinalize.

End Access.

(** ** Reading the history *)

(** What a successful vote with choice [c] and weight [w] makes of a
    proposal. *)
Definition cast (p : Proposal) (c w : Z) : Proposal :=
  if c =? 1 then add_for p (forVotes p + w)
  else if c =? 2 then add_against p (againstVotes p + w)
  else p.

(** Two records of one proposal: everything fixed at creation agrees. *)
Definition same_terms (p q : Proposal) : Prop :=
  pType p = pType q ∧ title p = title q ∧ proposer p = proposer q
  ∧ deadline p = deadline q ∧ threshold p = threshold q.

(** [l'] is a later version of the proposal list [l]: every proposal is
    still at its index, with the terms it was created with. *)
Definition evolves (l l' : list Proposal) : Prop :=
  ∀ i p, l !! i = Some p → ∃ p', l' !! i = Some p' ∧ same_terms p p'.

Fixpoint total_weight (bs : list Ballot) : Z :=
  match bs with
  | [] => 0
  | b :: bs' => b_weight b + total_weight bs'
  end.

Definition ballots_on (id : Z) (bs : list Ballot) : list Ballot :=
  filter (λ b, b_id b = id) bs.

Definition with_choice (c : Z) (bs : list Ballot) : list Ballot :=
  filter (λ b, b_choice b = c) bs.

(** What a transaction can do to the proposals, the vote records and the
    shareholder registry, with the ballot it casts if it is a vote that
    goes through and the id it returns if it creates a proposal. *)
Inductive effect (st st' : State) : option Ballot → option Z → Prop :=
| eff_none :
    proposals st' = proposals st → voted st' = voted st →
    shareholders st' = shareholders st →
    effect st st' None None
| eff_register a sh :
    proposals st' = proposals st → voted st' = voted st →
    shareholders st' = <[a := sh]> (shareholders st) →
    0 ≤ shares sh ≤ MAX_UINT32 →
    effect st st' None None
| eff_create p :
    proposals st' = proposals st ++ [p] → voted st' = voted st →
    shareholders st' = shareholders st →
    forVotes p = 0 → againstVotes p = 0 →
    effect st st' None (Some (Z.of_nat (length (proposals st)) + 1))
| eff_vote id s c p :
    get_proposal st id = Some p →
    has_voted st id s = false →
    proposals st'
      = <[Z.to_nat (id - 1) := cast p c (shares (shareholder_of st s))]>
          (proposals st) →
    voted st' = <[(id, s) := true]> (voted st) →
    shareholders st' = shareholders st →
    effect st st' (Some (mkBallot id s c (shares (shareholder_of st s)))) None
| eff_finalize id p :
    get_proposal st id = Some p →
    proposals st' = <[Z.to_nat (id - 1) := close p]> (proposals st) →
    voted st' = voted st →
    shareholders st' = shareholders st →
    effect st st' None None.

Definition key (b : Ballot) : Z * Z := (b_id b, b_voter b).

(** The storage [st] agrees with the ballots [bs] cast so far. *)
Record consistent (st : State) (bs : list Ballot) : Prop := {
  c_voted : ∀ b, b ∈ bs → has_voted st (b_id b) (b_voter b) = true;
  c_all : ∀ id a, has_voted st id a = true → (id, a) ∈ key <$> bs;
  c_known : ∀ b, b ∈ bs → is_Some (get_proposal st (b_id b));
  c_once : NoDup (key <$> bs);
  c_weight : ∀ b, b ∈ bs → 0 ≤ b_weight b;
  c_shares : ∀ a, 0 ≤ shares (shareholder_of st a);
  c_for : ∀ id p, get_proposal st id = Some p →
            forVotes p = total_weight (with_choice 1 (ballots_on id bs));
  c_against : ∀ id p, get_proposal st id = Some p →
            againstVotes p = total_weight (with_choice 2 (ballots_on id bs))
}.

(** ** The tutorial's scenario, run

    The owner (address 1) initializes the company and names a board
    member (2), who registers Alice (3), Bob (4) and Carol (5) with 50000,
    30000 and 20000 shares and opens a proposal at time 1000 for 7 days. *)

Module Scenario.

Import Access.

Definition step : State → Tx → State :=
  apply_tx onlyOwner onlyBoard onlySharehol onlyOwner canFinalize.

Definition setup : list Tx :=
  [ mkTx 1 100 (InitCompany "Acme Corporation" 1000000);
    mkTx 1 101 (AddBoard 2);
    mkTx 2 102 (AddShareholder 3 50000 "Alice Johnson");
    mkTx 2 103 (AddShareholder 4 30000 "Bob Smith");
    mkTx 2 104 (AddShareholder 5 20000 "Carol Williams") ].

Definition registered : State := run (deployed 1 ∅) setup.

Definition open_proposal (_type : Z) : Tx :=
  mkTx 2 1000 (CreateProposal _type "Q4 2024 Budget Approval" 7).

Definition opened (_type : Z) : State := step registered (open_proposal _type).

(** The proposal as created: it closes at 1000 + 7 * 86400. *)
Definition fresh (_type : Z) : Proposal :=
  mkProposal _type "Q4 2024 Budget Approval" 2 605800 true 0 0
             (threshold_of_type _type).

Definition alice_for : Tx := mkTx 3 2000 (Vote 1 1).
Definition bob_against : Tx := mkTx 4 2001 (Vote 1 2).
Definition carol_abstains : Tx := mkTx 5 2002 (Vote 1 0).

End Scenario.

(** * The voting page: [handleVote]

    The action is modelled by the sequence of things it does to the page
    and to the outside world.  What the page can do to the ledger is send
    a [vote] transaction through the connected contract; [handleVote]
    has that call commented out. *)

Module Frontend.

Inductive Action : Type :=
| ToastError (msg : string)
| ToastLoading (msg : string)
| ToastSuccess (msg : string)
| ConsoleError (msg : string)
| Sleep (ms : Z)
| SetVotingInProgress (id : option Z)
| SetShowVoteModal (shown : bool)
| SetSelectedProposal (id : option Z)
| SendVote (proposalId voteChoice : Z).

Definition is_SendVote (a : Action) : bool :=
  match a with SendVote _ _ => true | _ => false end.

Definition is_final_toast (a : Action) : bool :=
  match a with ToastSuccess _ | ToastError _ => true | _ => false end.

(** The component state [handleVote] writes to. *)
Record Page : Type := mkPage {
  votingInProgress : option Z;
  showVoteModal : bool;
  selectedProposal : option Z
}.

(** The page, the ledger behind the connected contract, the connected
    account, the clock, and what has been shown or logged so far. *)
Record World : Type := mkWorld {
  page : Page;
  ledger : State;
  account : Z;
  clock : Z;
  shown : list Action
}.

(** [error.message || 'Unknown error'], for an error thrown with or
    without a message. *)
Definition error_text (message : option string) : string :=
  match message with
  | Some m => if decide (m = EmptyString) then "Unknown error" else m
  | None => "Unknown error"
  end.

(** The body of the [try] block. *)
Definition try_block (label : string) : list Action :=
  [ ToastLoading ("Submitting " ++ label ++ " vote...")%string;
    Sleep 2000;
    ToastSuccess ("Vote submitted successfully! (" ++ label ++ ")")%string;
    SetShowVoteModal false;
    SetSelectedProposal None ].

(** Runs the actions in order until one throws; [throws a] is the message
    of the error that action [a] raises, if it raises one. *)
Fixpoint attempt (throws : Action → option (option string))
    (body : list Action) : list Action * option (option string) :=
  match body with
  | [] => ([], None)
  | a :: rest =>
      match throws a with
      | Some e => ([], Some e)
      | None => let r := attempt throws rest in (a :: fst r, snd r)
      end
  end.

Section Page.

(** The table of labels is imported from a module that is not shown. *)
Variable VOTE_CHOICE_LABELS : Z → string.
Variable onlySharehol : State → Z → Result unit.

Definition handleVote (isConnected loaded : bool)
    (throws : Action → option (option string))
    (proposalId voteChoice : Z) : list Action :=
  if negb isConnected || negb loaded then
    [ ToastError "Please connect your wallet and ensure contract is loaded" ]
  else
    let r := attempt throws (try_block (VOTE_CHOICE_LABELS voteChoice)) in
    [ SetVotingInProgress (Some proposalId) ]
    ++ fst r
    ++ match snd r with
       | Some e => [ ConsoleError "Voting error:";
                     ToastError ("Voting failed: " ++ error_text e)%string ]
       | None => []
       end
    ++ [ SetVotingInProgress None ].

(** What an action does to the world.  Only [SendVote] reaches the
    ledger: it is a [vote] transaction from the connected account. *)
Definition perform (w : World) (a : Action) : World :=
  let pg := page w in
  match a with
  | SendVote i c =>
      let l := match vote onlySharehol (ledger w) (account w) (clock w) i c with
               | Ok st' => st'
               | Revert _ => ledger w
               end in
      mkWorld pg l (account w) (clock w) (shown w)
  | Sleep ms =>
      mkWorld pg (ledger w) (account w) (clock w + ms / 1000) (shown w)
  | SetVotingInProgress v =>
      mkWorld (mkPage v (showVoteModal pg) (selectedProposal pg))
              (ledger w) (account w) (clock w) (shown w)
  | SetShowVoteModal b =>
      mkWorld (mkPage (votingInProgress pg) b (selectedProposal pg))
              (ledger w) (account w) (clock w) (shown w)
  | SetSelectedProposal s =>
      mkWorld (mkPage (votingInProgress pg) (showVoteModal pg) s)
              (ledger w) (account w) (clock w) (shown w)
  | ToastError _ | ToastLoading _ | ToastSuccess _ | ConsoleError _ =>
      mkWorld pg (ledger w) (account w) (clock w) (shown w ++ [a])
  end.

Definition perform_all (w : World) (acts : list Action) : World :=
  fold_left perform acts w.

End Page.

(** [openVoteModal(proposal)]: the "Vote Now" button of a proposal. *)
Definition openVoteModal (proposalId : Z) : list Action :=
  [ SetSelectedProposal (Some proposalId); SetShowVoteModal true ].

(** [showVoteModal && selectedProposal]: the confirmation panel is
    rendered. *)
Definition modal_open (pg : Page) : bool :=
  showVoteModal pg && bool_decide (is_Some (selectedProposal pg)).


End Frontend.

(** * The proposal list: [filteredProposals]

    The list page keeps the proposals whose status is the selected tab and
    which match the search term, in their order. *)

Module ProposalList.

(** The fields of a [MockProposal] the filter reads. *)
Record MockProposal : Type := mkMock {
  mp_id : Z;
  mp_title : string;
  mp_description : string;
  mp_type : Z;
  mp_status : string
}.

(** ['all' | 'active' | 'pending' | 'completed'] *)
Inductive Tab : Type := All | Active | Pending | Completed.

Definition tab_id (t : Tab) : string :=
  match t with
  | All => "all"
  | Active => "active"
  | Pending => "pending"
  | Completed => "completed"
  end.

Section Filter.

(** JavaScript's [String.prototype.toLowerCase] and [includes], and the
    table of type labels, which is imported; the enum type of
    [proposal.type] makes the lookup total. *)
Variable toLowerCase : string → string.
Variable includes : string → string → bool.
Variable PROPOSAL_TYPE_LABELS : Z → string.

(** The predicate of the search filter. *)
Definition matches (searchTerm : string) (proposal : MockProposal) : bool :=
  includes (toLowerCase (mp_title proposal)) (toLowerCase searchTerm)
  || includes (toLowerCase (mp_description proposal)) (toLowerCase searchTerm)
  || includes (toLowerCase (PROPOSAL_TYPE_LABELS (mp_type proposal)))
              (toLowerCase searchTerm).

Definition filteredProposals (mockProposals : list MockProposal)
    (selectedTab : Tab) (searchTerm : string) : list MockProposal :=
  let filtered := mockProposals in
  let filtered :=
    if bool_decide (tab_id selectedTab ≠ "all"%string)
    then filter (λ proposal, mp_status proposal = tab_id selectedTab) filtered
    else filtered in
  let filtered :=
    if bool_decide (searchTerm ≠ EmptyString)
    then filter (λ proposal, matches searchTerm proposal = true) filtered
    else filtered in
  filtered.

End Filter.

(** The count shown on a tab: [mockProposals.length] for 'all',
    [mockProposals.filter(p => p.status === id).length] for the others. *)
Definition tab_count (mockProposals : list MockProposal) (t : Tab) : nat :=
  match t with
  | All => length mockProposals
  | _ => length (filter (λ p, mp_status p = tab_id t) mockProposals)
  end.

(** A status none of the three status tabs shows, such as 'executed'. *)
Definition off_tabs (p : MockProposal) : Prop :=
  mp_status p ≠ "active"%string ∧ mp_status p ≠ "pending"%string
  ∧ mp_status p ≠ "completed"%string.

#[global] Instance off_tabs_dec (p : MockProposal) : Decision (off_tabs p).
Proof. unfold off_tabs. apply _. Defined.

End ProposalList.

(** * The test helpers: [createTestProposal]

    The helper sends one [createProposal] transaction through the wallet
    and hands back the receipt, or throws. *)

Module TestHelpers.

Inductive Outcome : Type :=
| Receipt (ledger' : State)
| Thrown (message : option string) (ledger' : State).

Section Helpers.

Variable onlyBoard : State → Z → Result unit.

(** What ethers throws when the transaction reverts: the reason string
    when there is one. *)
Definition revert_message (f : Failure) : option string :=
  match f with Reason msg => Some msg | _ => None end.

(** [ethereum] tells whether [window.ethereum] is there, [signer] is the
    wallet's account, [now] the time of the block that takes the
    transaction. *)
Definition createTestProposal (ethereum : bool) (signer now : Z)
    (ledger : State) : Outcome :=
  if negb ethereum then Thrown (Some "MetaMask not installed"%string) ledger
  else
    match createProposal onlyBoard ledger signer now
            1 "Test Proposal: Elect New Board Member" 7 with
    | Ok r => Receipt (fst r)
    | Revert f => Thrown (revert_message f) ledger
    end.

End Helpers.

End TestHelpers.

(** ** Reading the event log *)

(** The ids announced by the [ProposalAdd] events of a log, in order. *)
Definition proposal_events (log : list Event) : list Z :=
  omap (λ e, match e with ProposalAdd id => Some id | _ => None end) log.

(** The (proposal, voter) pairs announced by the [VoteAdd] events of a
    log, in order. *)
Definition vote_events (log : list Event) : list (Z * Z) :=
  omap (λ e, match e with VoteAdd id a => Some (id, a) | _ => None end) log.

(** What is settled once the company is initialized. *)
Definition settled (n : string) (t : Z) (st : State) : Prop :=
  initialized st = true ∧ companyName st = n ∧ totalShares st = t.

(** Every stored share count and tally fits its [uint32]. *)
Definition within_uint32 (st : State) : Prop :=
  (∀ a, 0 ≤ shares (shareholder_of st a) ≤ MAX_UINT32)
  ∧ ∀ i p, proposals st !! i = Some p →
      0 ≤ forVotes p ≤ MAX_UINT32 ∧ 0 ≤ againstVotes p ≤ MAX_UINT32.

(** * Multi-signature approval: [approveProposal]

    Chapter 9 of the tutorial adds two mappings to the contract and an
    entry point by which board members approve a proposal. *)

Module MultiSig.

(** The contract's storage with the two mappings
    [proposalApprovals[id][address]] and [approvalCount[id]] (a [uint8]). *)
Record Board : Type := mkBoard {
  ledger : State;
  proposalApprovals : gmap (Z * Z) bool;
  approvalCount : gmap Z Z
}.

Definition has_approved (b : Board) (id a : Z) : bool :=
  default false (proposalApprovals b !! (id, a)).

Definition approvals (b : Board) (id : Z) : Z :=
  default 0 (approvalCount b !! id).

(** [proposals[i]], for an index of type [uint256]. *)
Definition at_index (l : list Proposal) (i : Z) : option Proposal :=
  if 0 <=? i then l !! Z.to_nat i else None.

Definition activate (p : Proposal) : Proposal :=
  mkProposal (pType p) (title p) (proposer p) (deadline p) true
             (forVotes p) (againstVotes p) (threshold p).

Section Approval.

Variable onlyBoard : State → Z → Result unit.

Definition approveProposal (b : Board) (sender : Z)
    (_proposalId : Z) : Result Board :=
  onlyBoard (ledger b) sender;;
  require (negb (has_approved b _proposalId sender)) "Already approved";;
  let given := <[(_proposalId, sender) := true]> (proposalApprovals b) in
  n ← checked_add MAX_UINT8 (approvals b _proposalId) 1;
  let counts := <[_proposalId := n]> (approvalCount b) in
  if 2 <=? n then
    match at_index (proposals (ledger b)) _proposalId with
    | None => Revert (Panic 50)
    | Some p =>
        mret (mkBoard (set_proposal (ledger b) (Z.to_nat _proposalId)
                                    (activate p))
                      given counts)
    end
  else mret (mkBoard (ledger b) given counts).

(** A run of approval calls, each given by its sender and the index it
    approves; a call that aborts changes nothing. *)
Definition approve (b : Board) (call : Z * Z) : Board :=
  match approveProposal b (fst call) (snd call) with
  | Ok b' => b'
  | Revert _ => b
  end.

Definition approve_all (b : Board) (calls : list (Z * Z)) : Board :=
  fold_left approve calls b.

(** The calls of a run that went through, in order. *)
Fixpoint approved (b : Board) (calls : list (Z * Z)) : list (Z * Z) :=
  match calls with
  | [] => []
  | call :: rest =>
      match approveProposal b (fst call) (snd call) with
      | Ok b' => call :: approved b' rest
      | Revert _ => approved b rest
      end
  end.

End Approval.

(** The storage [b] agrees with the approvals [given] so far, each a
    pair of the approving member and the approved index. *)
Record counted (b : Board) (given : list (Z * Z)) : Prop := {
  n_given : ∀ id a, has_approved b id a = true ↔ (a, id) ∈ given;
  n_once : NoDup given;
  n_count : ∀ id, approvals b id
                  = Z.of_nat (length (filter (λ c, snd c = id) given));
  n_bound : ∀ id, approvals b id ≤ MAX_UINT8;
  n_active : ∀ id, 2 ≤ approvals b id →
               ∃ p, at_index (proposals (ledger b)) id = Some p
                    ∧ active p = true
}.

(** The contract before any approval was given. *)
Definition unapproved (st : State) : Board := mkBoard st ∅ ∅.

End MultiSig.

(** Two large holders, for the edge of the tallies' range: 4000000000 and
    300000000 shares together exceed 2^32 - 1. *)
Module Whales.

Definition setup : list Tx :=
  [ mkTx 1 101 (AddBoard 2);
    mkTx 2 102 (AddShareholder 3 4000000000 "Alice Johnson");
    mkTx 2 103 (AddShareholder 4 300000000 "Bob Smith");
    mkTx 2 1000 (CreateProposal 0 "Q4 2024 Budget Approval" 7);
    mkTx 3 2000 (Vote 1 1) ].

Definition after_alice : State := Access.run (deployed 1 ∅) setup.

Definition tallied : Proposal :=
  mkProposal 0 "Q4 2024 Budget Approval" 2 605800 true 4000000000 0 50.

End Whales.

(** ** Sample data for the pages *)

Module Samples.

(** Lower-casing of the letters A to Z, and substring search: stand-ins
    for JavaScript's [toLowerCase] and [includes] on plain text. *)
Definition lower_ascii (c : ascii) : ascii :=
  let n := nat_of_ascii c in
  if (65 <=? n)%nat && (n <=? 90)%nat then ascii_of_nat (n + 32) else c.

Fixpoint lower (s : string) : string :=
  match s with
  | EmptyString => EmptyString
  | String c s' => String (lower_ascii c) (lower s')
  end.

Fixpoint contains (s t : string) : bool :=
  String.prefix t s
  || match s with
     | EmptyString => false
     | String _ s' => contains s' t
     end.

Definition labels (t : Z) : string :=
  if t =? 0 then "Board Election" else if t =? 1 then "Budget Approval"
  else "Strategic Decision".

Definition mocks : list ProposalList.MockProposal :=
  [ ProposalList.mkMock 1 "Q4 Budget" "Approve the budget" 1 "active";
    ProposalList.mkMock 2 "New director" "Elect a director" 0 "completed";
    ProposalList.mkMock 3 "Merger" "Acquire a supplier" 2 "executed";
    ProposalList.mkMock 4 "Dividend" "Budget surplus payout" 2 "active" ].


(** The scenario's ledger with a second board member (7). *)
Definition two_members : State :=
  Access.run (Scenario.opened 0) [mkTx 1 1500 (AddBoard 7)].

Definition approval_calls : list (Z * Z) :=
  [ (2, 0); (7, 0); (2, 0); (2, 5); (7, 5) ].

End Samples.

(** * Proofs *)

(** ** Basic facts *)

Lemma same_terms_refl p : same_terms p p.
Proof. by repeat split. Qed.

Lemma same_terms_trans p q r : same_terms p q → same_terms q r → same_terms p r.
Proof. unfold same_terms. intuition congruence. Qed.

Lemma same_terms_cast p c w : same_terms p (cast p c w).
Proof. unfold cast. repeat case_match; by repeat split. Qed.

Lemma same_terms_close p : same_terms p (close p).
Proof. by repeat split. Qed.

Lemma evolves_refl l : evolves l l.
Proof. intros i p Hp. exists p. split; [done | apply same_terms_refl]. Qed.

Lemma evolves_trans l1 l2 l3 : evolves l1 l2 → evolves l2 l3 → evolves l1 l3.
Proof.
  intros H12 H23 i p Hp.
  destruct (H12 i p Hp) as (q & Hq & Hpq).
  destruct (H23 i q Hq) as (r & Hr & Hqr).
  exists r. split; [done | by eapply same_terms_trans].
Qed.

Lemma evolves_push l p : evolves l (l ++ [p]).
Proof.
  intros i q Hq. exists q. split; [| apply same_terms_refl].
  by apply lookup_app_l_Some.
Qed.

Lemma evolves_insert l i p p' :
  l !! i = Some p → same_terms p p' → evolves l (<[i := p']> l).
Proof.
  intros Hi Hs j q Hq. destruct (decide (i = j)) as [<- | Hne].
  - exists p'. split; [| congruence].
    apply list_lookup_insert_eq. by eapply lookup_lt_Some.
  - exists q. split; [| apply same_terms_refl].
    by rewrite list_lookup_insert_ne.
Qed.

Lemma evolves_length l l' : evolves l l' → (length l ≤ length l')%nat.
Proof.
  intros H. destruct (decide (length l ≤ length l')%nat) as [| Hgt]; [done |].
  assert (is_Some (l !! length l')) as [p Hp] by (apply lookup_lt_is_Some; lia).
  destruct (H _ _ Hp) as (p' & Hp' & _).
  apply lookup_lt_Some in Hp'. lia.
Qed.

Lemma get_proposal_Some st id p :
  get_proposal st id = Some p ↔
  0 < id ∧ proposals st !! Z.to_nat (id - 1) = Some p.
Proof.
  unfold get_proposal. split.
  - case_match eqn:Hr; [| done]. intros Hp. split; [lia | done].
  - intros [Hid Hp]. pose proof (lookup_lt_Some _ _ _ Hp) as Hlt.
    case_match eqn:Hr; [done | lia].
Qed.

Lemma total_weight_app bs1 bs2 :
  total_weight (bs1 ++ bs2) = total_weight bs1 + total_weight bs2.
Proof. induction bs1 as [| b bs1 IH]; simpl; lia. Qed.

(** ** What each entry point does when it returns *)

Ltac unfold_monad :=
  unfold mbind, mret, Result_bind, Result_ret, require,
         checked_add, checked_mul in *.

Section EntryPoints.

Variable guard : State → Z → Result unit.
Variable fguard : State → Z → Z → Z → Result unit.

Lemma initCompany_Ok st s n t st' :
  initCompany guard st s n t = Ok st' →
  st' = emit (set_company st n t) (CompanyInit n).
Proof.
  unfold initCompany. unfold_monad. intros H.
  repeat case_match; by simplify_eq.
Qed.

Lemma addBoard_Ok st s a st' :
  addBoard guard st s a = Ok st' → st' = set_board st a.
Proof.
  unfold addBoard. unfold_monad. intros H.
  repeat case_match; by simplify_eq.
Qed.

Lemma addShareholder_Ok st s a n t st' :
  addShareholder guard st s a n t = Ok st' →
  st' = emit (set_shareholder st a (mkShareholder true n t)) (ShareholderAdd a).
Proof.
  unfold addShareholder. unfold_monad. intros H.
  repeat case_match; by simplify_eq.
Qed.

Lemma createProposal_Ok st s now t ti d st' id :
  createProposal guard st s now t ti d = Ok (st', id) →
  guard st s = Ok tt
  ∧ id = Z.of_nat (length (proposals st)) + 1
  ∧ now + d * ONE_DAY ≤ MAX_UINT256
  ∧ st' = emit (push_proposal st
            (mkProposal t ti s (now + d * ONE_DAY) true 0 0
                        (threshold_of_type t)))
          (ProposalAdd id).
Proof.
  unfold createProposal. unfold_monad. intros H.
  repeat case_match; simplify_eq.
  repeat split; [by destruct_all unit | lia].
Qed.

Lemma vote_Ok st s now id c st' :
  vote guard st s now id c = Ok st' →
  guard st s = Ok tt
  ∧ has_voted st id s = false
  ∧ ∃ p, get_proposal st id = Some p
    ∧ active p = true
    ∧ now ≤ deadline p
    ∧ (c = 1 → forVotes p + shares (shareholder_of st s) ≤ MAX_UINT32)
    ∧ (c = 2 → againstVotes p + shares (shareholder_of st s) ≤ MAX_UINT32)
    ∧ st' = emit (set_proposal (set_voted st id s) (Z.to_nat (id - 1))
                    (cast p c (shares (shareholder_of st s))))
              (VoteAdd id s).
Proof.
  unfold vote. unfold_monad. intros H.
  destruct (guard st s) as [[] |] eqn:Hg; [| done].
  destruct (_ && _) eqn:Hid in H; [| done].
  destruct (negb _) eqn:Hv in H; [| done].
  destruct (proposals st !! _) as [p |] eqn:Hp; [| done].
  destruct (active p && _) eqn:Hopen in H; [| done].
  apply andb_true_iff in Hid as [Hid1 Hid2], Hopen as [Hact Hdl].
  apply negb_true_iff in Hv.
  split; [done |]. split; [done |]. exists p.
  split; [apply get_proposal_Some; split; [lia | done] |].
  split; [done |]. split; [lia |].
  unfold cast, shareholder_of in *. simpl in H.
  repeat case_match; simplify_eq; repeat split; intros; try lia; done.
Qed.

(** The converse: a call that meets every check goes through. *)
Lemma vote_accepted st s now id c p :
  guard st s = Ok tt →
  has_voted st id s = false →
  get_proposal st id = Some p →
  active p = true →
  now ≤ deadline p →
  (c = 1 → forVotes p + shares (shareholder_of st s) ≤ MAX_UINT32) →
  (c = 2 → againstVotes p + shares (shareholder_of st s) ≤ MAX_UINT32) →
  vote guard st s now id c
  = Ok (emit (set_proposal (set_voted st id s) (Z.to_nat (id - 1))
                (cast p c (shares (shareholder_of st s))))
          (VoteAdd id s)).
Proof.
  intros Hg Hv Hp Hact Hdl H1 H2.
  apply get_proposal_Some in Hp as [Hid Hp].
  pose proof (lookup_lt_Some _ _ _ Hp) as Hlt.
  unfold vote. unfold_monad. rewrite Hg, Hv, Hp, Hact. simpl.
  replace (0 <? id) with true by lia.
  replace (id <=? Z.of_nat (length (proposals st))) with true by lia.
  replace (now <=? deadline p) with true by lia. simpl.
  unfold cast, shareholder_of in *. simpl.
  destruct (c =? 1) eqn:E1.
  - replace (_ <=? MAX_UINT32) with true by lia. done.
  - destruct (c =? 2) eqn:E2; [| done].
    replace (_ <=? MAX_UINT32) with true by lia. done.
Qed.

Lemma finalize_Ok st s now id st' :
  finalize fguard st s now id = Ok st' →
  ∃ p, get_proposal st id = Some p
    ∧ st' = set_proposal st (Z.to_nat (id - 1)) (close p).
Proof.
  unfold finalize. unfold_monad. intros H.
  destruct (fguard st s now id) as [[] |]; [| done].
  destruct (_ && _) eqn:Hid in H; [| done].
  destruct (proposals st !! _) as [p |] eqn:Hp; [| done].
  apply andb_true_iff in Hid as [Hid1 Hid2].
  exists p. split; [apply get_proposal_Some; split; [lia | done] |].
  by simplify_eq.
Qed.

End EntryPoints.

(** ** One transaction *)

Section Histories.

Variable onlyOwner onlyBoard onlySharehol canAddBoard : State → Z → Result unit.
Variable canFinalize : State → Z → Z → Z → Result unit.

Local Abbreviation exec :=
  (execute onlyOwner onlyBoard onlySharehol canAddBoard canFinalize).
Local Abbreviation step :=
  (apply_tx onlyOwner onlyBoard onlySharehol canAddBoard canFinalize).
Local Abbreviation runs :=
  (run onlyOwner onlyBoard onlySharehol canAddBoard canFinalize).
Local Abbreviation cast_by :=
  (ballot_of onlyOwner onlyBoard onlySharehol canAddBoard canFinalize).
Local Abbreviation history :=
  (ballots onlyOwner onlyBoard onlySharehol canAddBoard canFinalize).
Local Abbreviation ids_of :=
  (created_ids onlyOwner onlyBoard onlySharehol canAddBoard canFinalize).
Local Abbreviation id_of := (created onlyBoard).

Lemma step_revert st tx f : exec st tx = Revert f → step st tx = st.
Proof. unfold apply_tx. by intros ->. Qed.

Lemma step_effect st tx : effect st (step st tx) (cast_by st tx) (id_of st tx).
Proof.
  unfold ballot_of, created, apply_tx.
  destruct (exec st tx) as [st' | f] eqn:E; unfold execute in E.
  2: { assert (effect st st None None) by by constructor.
       destruct (well_typed _); destruct (tx_call tx); try done.
       unfold_monad. by destruct (createProposal _ _ _ _ _ _ _). }
  destruct (well_typed _) eqn:Hwt; [| done].
  destruct (tx_call tx) as [n t | a | a n t | t ti d | id c | id];
    simpl in E, Hwt.
  - apply initCompany_Ok in E as ->. by constructor.
  - apply addBoard_Ok in E as ->. by constructor.
  - apply addShareholder_Ok in E as ->.
    apply eff_register with a (mkShareholder true n t); try done.
    unfold is_uint in Hwt. simpl. lia.
  - unfold_monad.
    destruct (createProposal _ _ _ _ _ _ _) as [[st1 id] |] eqn:Hc; [| done].
    simplify_eq. simpl.
    apply createProposal_Ok in Hc as (_ & -> & _ & ->).
    by eapply eff_create.
  - apply vote_Ok in E as (_ & Hv & p & Hp & _ & _ & _ & _ & ->).
    by eapply eff_vote.
  - apply finalize_Ok in E as (p & Hp & ->). by eapply eff_finalize.
Qed.

Lemma effect_evolves st st' ob oid :
  effect st st' ob oid → evolves (proposals st) (proposals st').
Proof.
  destruct 1 as [-> | ?? -> | ? -> | ???? Hp%get_proposal_Some ? ->
                | ?? Hp%get_proposal_Some ->];
    try apply evolves_refl.
  - apply evolves_push.
  - eapply evolves_insert; [apply Hp | apply same_terms_cast].
  - eapply evolves_insert; [apply Hp | apply same_terms_close].
Qed.

Lemma effect_voted st st' ob oid id a :
  effect st st' ob oid →
  has_voted st id a = true → has_voted st' id a = true.
Proof.
  unfold has_voted.
  destruct 1 as [? -> | ??? -> | ?? -> | ??????? -> | ???? ->]; try done.
  intros Hv. rewrite lookup_insert. by case_decide.
Qed.

Lemma step_evolves st tx : evolves (proposals st) (proposals (step st tx)).
Proof. eapply effect_evolves, step_effect. Qed.

Lemma run_evolves st txs : evolves (proposals st) (proposals (runs st txs)).
Proof.
  revert st. induction txs as [| tx txs IH]; intros st; simpl.
  - apply evolves_refl.
  - eapply evolves_trans; [apply step_evolves | apply IH].
Qed.

Lemma run_voted st txs id a :
  has_voted st id a = true → has_voted (runs st txs) id a = true.
Proof.
  revert st. induction txs as [| tx txs IH]; intros st Hv; simpl; [done |].
  apply IH. eapply effect_voted; [apply step_effect | done].
Qed.

Lemma evolves_get_proposal st st' id p :
  evolves (proposals st) (proposals st') →
  get_proposal st id = Some p →
  ∃ p', get_proposal st' id = Some p' ∧ same_terms p p'.
Proof.
  intros Hev [Hid Hp]%get_proposal_Some.
  destruct (Hev _ _ Hp) as (p' & Hp' & Hs).
  exists p'. split; [| done]. by apply get_proposal_Some.
Qed.

Lemma effect_length st st' ob oid :
  effect st st' ob oid →
  match oid with
  | Some id => id = Z.of_nat (length (proposals st)) + 1
               ∧ length (proposals st') = S (length (proposals st))
  | None => length (proposals st') = length (proposals st)
  end.
Proof.
  destruct 1 as [-> | ?? -> | ? -> | ?????? -> | ??? ->];
    rewrite ?length_insert, ?length_app; simpl; try done.
  split; [done | lia].
Qed.

Lemma run_ids st txs :
  ids_of st txs
  = seqZ (Z.of_nat (length (proposals st)) + 1)
         (Z.of_nat (length (proposals (runs st txs)))
          - Z.of_nat (length (proposals st))).
Proof.
  revert st. induction txs as [| tx txs IH]; intros st; simpl.
  - by rewrite Z.sub_diag.
  - pose proof (effect_length _ _ _ _ (step_effect st tx)) as Hlen.
    pose proof (evolves_length _ _ (run_evolves (step st tx) txs)) as Hle.
    rewrite IH. destruct (id_of st tx) as [id |].
    + destruct Hlen as [-> Hlen]. rewrite Hlen in *.
      rewrite (seqZ_cons (Z.of_nat (length (proposals st)) + 1)) by lia.
      f_equal. f_equal; lia.
    + by rewrite Hlen.
Qed.

End Histories.

(** ** The tallies and the history of votes *)

Lemma get_proposal_ext st st' id :
  proposals st' = proposals st → get_proposal st' id = get_proposal st id.
Proof. unfold get_proposal. by intros ->. Qed.

Lemma has_voted_ext st st' id a :
  voted st' = voted st → has_voted st' id a = has_voted st id a.
Proof. unfold has_voted. by intros ->. Qed.

Lemma shareholder_of_ext st st' a :
  shareholders st' = shareholders st → shareholder_of st' a = shareholder_of st a.
Proof. unfold shareholder_of. by intros ->. Qed.

Lemma get_proposal_push st st' p id q :
  proposals st' = proposals st ++ [p] →
  get_proposal st' id = Some q →
  get_proposal st id = Some q
  ∨ (id = Z.of_nat (length (proposals st)) + 1 ∧ q = p).
Proof.
  intros Hl [Hid Hq]%get_proposal_Some. rewrite Hl in Hq.
  apply lookup_app_Some in Hq as [Hq | [Hge Hq]].
  - left. by apply get_proposal_Some.
  - right. apply list_lookup_singleton_Some in Hq as [Hi ->].
    split; [lia | done].
Qed.

Lemma get_proposal_insert st st' id p p' id' q :
  get_proposal st id = Some p →
  proposals st' = <[Z.to_nat (id - 1) := p']> (proposals st) →
  get_proposal st' id' = Some q →
  (id' = id ∧ q = p') ∨ (id' ≠ id ∧ get_proposal st id' = Some q).
Proof.
  intros [Hid Hp]%get_proposal_Some Hl [Hid' Hq]%get_proposal_Some.
  rewrite Hl in Hq. destruct (decide (id' = id)) as [-> | Hne].
  - left. split; [done |].
    rewrite list_lookup_insert_eq in Hq by by eapply lookup_lt_Some.
    congruence.
  - right. split; [done |].
    rewrite list_lookup_insert_ne in Hq by lia.
    by apply get_proposal_Some.
Qed.

Lemma get_proposal_bound st id p :
  get_proposal st id = Some p → 0 < id ≤ Z.of_nat (length (proposals st)).
Proof.
  intros [Hid Hp]%get_proposal_Some. apply lookup_lt_Some in Hp. lia.
Qed.

Lemma forVotes_cast p c w :
  forVotes (cast p c w) = forVotes p + (if decide (c = 1) then w else 0).
Proof.
  unfold cast. case_decide.
  - subst. simpl. lia.
  - replace (c =? 1) with false by lia. case_match; simpl; lia.
Qed.

Lemma againstVotes_cast p c w :
  againstVotes (cast p c w)
  = againstVotes p + (if decide (c = 2) then w else 0).
Proof.
  unfold cast. case_decide.
  - subst. simpl. lia.
  - replace (c =? 2) with false by lia. case_match; simpl; lia.
Qed.

Lemma ballots_on_snoc id bs b :
  ballots_on id (bs ++ [b])
  = ballots_on id bs ++ (if decide (b_id b = id) then [b] else []).
Proof.
  unfold ballots_on. by rewrite filter_app.
Qed.

Lemma with_choice_snoc c bs b :
  with_choice c (bs ++ [b])
  = with_choice c bs ++ (if decide (b_choice b = c) then [b] else []).
Proof.
  unfold with_choice. by rewrite filter_app.
Qed.

Lemma ballots_on_unknown st bs id :
  (∀ b, b ∈ bs → is_Some (get_proposal st (b_id b))) →
  Z.of_nat (length (proposals st)) < id →
  ballots_on id bs = [].
Proof.
  intros Hknown Hid.
  destruct (ballots_on id bs) as [| b l] eqn:E; [done |].
  assert (b ∈ ballots_on id bs) as Hb by (rewrite E; left).
  apply list_elem_of_filter in Hb as [<- Hb].
  destruct (Hknown b Hb) as [p Hp]. apply get_proposal_bound in Hp. lia.
Qed.

Lemma consistent_deployed o board : consistent (deployed o board) [].
Proof.
  split; try (intros b Hb; by apply elem_of_nil in Hb);
    try (by intros id p [_ Hp]%get_proposal_Some); try done.
  constructor.
Qed.

Lemma effect_consistent st st' ob oid bs :
  effect st st' ob oid →
  consistent st bs → consistent st' (bs ++ option_list ob).
Proof.
  intros Heff [Hvoted Hall Hknown Honce Hweight Hshares Hfor Hagainst].
  pose proof (effect_evolves _ _ _ _ Heff) as Hev.
  assert (∀ b, b ∈ bs → has_voted st' (b_id b) (b_voter b) = true) as Hvoted'.
  { intros b Hb. eapply effect_voted; [done | by apply Hvoted]. }
  assert (∀ b, b ∈ bs → is_Some (get_proposal st' (b_id b))) as Hknown'.
  { intros b Hb. destruct (Hknown b Hb) as [p Hp].
    destruct (evolves_get_proposal _ _ _ _ Hev Hp) as (p' & Hp' & _). by exists p'. }
  destruct Heff as [Hl Hv Hs | a sh Hl Hv Hs Hr | p Hl Hv Hs Hf Ha
                    | id s c p Hp Hnv Hl Hv Hs | id p Hp Hl Hv Hs];
    simpl; rewrite ?app_nil_r.
  - split; try done.
    + intros id0 a0. rewrite (has_voted_ext _ _ _ _ Hv). apply Hall.
    + intros a. by rewrite (shareholder_of_ext _ _ _ Hs).
    + intros id p. rewrite (get_proposal_ext _ _ _ Hl). apply Hfor.
    + intros id p. rewrite (get_proposal_ext _ _ _ Hl). apply Hagainst.
  - split; try done.
    + intros id0 a0. rewrite (has_voted_ext _ _ _ _ Hv). apply Hall.
    + intros a'. unfold shareholder_of. rewrite Hs, lookup_insert.
      case_decide; simpl; [lia | apply Hshares].
    + intros id p. rewrite (get_proposal_ext _ _ _ Hl). apply Hfor.
    + intros id p. rewrite (get_proposal_ext _ _ _ Hl). apply Hagainst.
  - split; try done.
    + intros id0 a0. rewrite (has_voted_ext _ _ _ _ Hv). apply Hall.
    + intros a. by rewrite (shareholder_of_ext _ _ _ Hs).
    + intros id q Hq.
      destruct (get_proposal_push _ _ _ _ _ Hl Hq) as [Hq' | [-> ->]];
        [by apply Hfor |].
      rewrite (ballots_on_unknown st) by (done || lia). done.
    + intros id q Hq.
      destruct (get_proposal_push _ _ _ _ _ Hl Hq) as [Hq' | [-> ->]];
        [by apply Hagainst |].
      rewrite (ballots_on_unknown st) by (done || lia). done.
  - set (w := shares (shareholder_of st s)) in *.
    set (b := mkBallot id s c w).
    split.
    + intros b' [Hb' | ->%list_elem_of_singleton]%elem_of_app; [by apply Hvoted' |].
      unfold has_voted. simpl. by rewrite Hv, lookup_insert_eq.
    + intros id0 a0. unfold has_voted. rewrite Hv, lookup_insert, fmap_app.
      case_decide as Hk; [intros _ | intros Hv0].
      * apply elem_of_app. right. apply list_elem_of_singleton.
        unfold key. simpl. congruence.
      * apply elem_of_app. left. by apply Hall.
    + intros b' [Hb' | ->%list_elem_of_singleton]%elem_of_app; [by apply Hknown' |].
      destruct (evolves_get_proposal _ _ _ _ Hev Hp) as (p' & Hp' & _). by exists p'.
    + rewrite fmap_app. apply NoDup_app. split; [done |]. split.
      * intros k (b' & -> & Hb')%list_elem_of_fmap
               [Hk | Hk%elem_of_nil]%elem_of_cons; [| done].
        unfold key in Hk. simpl in Hk.
        specialize (Hvoted b' Hb'). simplify_eq. congruence.
      * apply NoDup_singleton.
    + intros b' [Hb' | ->%list_elem_of_singleton]%elem_of_app; [by apply Hweight |].
      apply Hshares.
    + intros a. by rewrite (shareholder_of_ext _ _ _ Hs).
    + intros id' q Hq. rewrite ballots_on_snoc. simpl.
      destruct (get_proposal_insert _ _ _ _ _ _ _ Hp Hl Hq) as [[-> ->] | [Hne Hq']].
      * rewrite decide_True by done. rewrite with_choice_snoc, total_weight_app.
        rewrite forVotes_cast, (Hfor _ _ Hp). simpl.
        case_decide; simpl; lia.
      * rewrite decide_False by done. rewrite app_nil_r. by apply Hfor.
    + intros id' q Hq. rewrite ballots_on_snoc. simpl.
      destruct (get_proposal_insert _ _ _ _ _ _ _ Hp Hl Hq) as [[-> ->] | [Hne Hq']].
      * rewrite decide_True by done. rewrite with_choice_snoc, total_weight_app.
        rewrite againstVotes_cast, (Hagainst _ _ Hp). simpl.
        case_decide; simpl; lia.
      * rewrite decide_False by done. rewrite app_nil_r. by apply Hagainst.
  - split; try done.
    + intros id0 a0. rewrite (has_voted_ext _ _ _ _ Hv). apply Hall.
    + intros a. by rewrite (shareholder_of_ext _ _ _ Hs).
    + intros id' q Hq.
      destruct (get_proposal_insert _ _ _ _ _ _ _ Hp Hl Hq) as [[-> ->] | [Hne Hq']].
      * simpl. by apply Hfor.
      * by apply Hfor.
    + intros id' q Hq.
      destruct (get_proposal_insert _ _ _ _ _ _ _ Hp Hl Hq) as [[-> ->] | [Hne Hq']].
      * simpl. by apply Hagainst.
      * by apply Hagainst.
Qed.

Lemma total_weight_split bs :
  (∀ b, b ∈ bs → 0 ≤ b_weight b) →
  total_weight (with_choice 1 bs) + total_weight (with_choice 2 bs)
  = total_weight (filter (λ b, b_choice b = 1 ∨ b_choice b = 2) bs)
  ∧ total_weight (filter (λ b, b_choice b = 1 ∨ b_choice b = 2) bs)
    ≤ total_weight bs.
Proof.
  unfold with_choice. induction bs as [| b bs IH]; intros Hw; [done |].
  destruct IH as [IH1 IH2]; [intros b' Hb'; apply Hw; by right |].
  assert (0 ≤ b_weight b) by (apply Hw; by left).
  rewrite !filter_cons.
  repeat case_decide; simpl; lia.
Qed.

Lemma voters_distinct id bs :
  NoDup (key <$> bs) → NoDup (b_voter <$> ballots_on id bs).
Proof.
  unfold ballots_on. induction bs as [| b bs IH]; intros Hnd.
  - constructor.
  - rewrite fmap_cons in Hnd. apply NoDup_cons in Hnd as [Hb Hnd].
    rewrite filter_cons. case_decide as Hid; [| by apply IH].
    rewrite fmap_cons. apply NoDup_cons. split; [| by apply IH].
    intros (b' & Hv & [Hid' Hb']%list_elem_of_filter)%list_elem_of_fmap.
    apply Hb. apply list_elem_of_fmap. exists b'. split; [| done].
    unfold key. congruence.
Qed.

(** ** The properties of the ledger *)

Section Claims.

Variable onlyOwner onlyBoard onlySharehol canAddBoard : State → Z → Result unit.
Variable canFinalize : State → Z → Z → Z → Result unit.

Local Abbreviation step :=
  (apply_tx onlyOwner onlyBoard onlySharehol canAddBoard canFinalize).
Local Abbreviation runs :=
  (run onlyOwner onlyBoard onlySharehol canAddBoard canFinalize).
Local Abbreviation history :=
  (ballots onlyOwner onlyBoard onlySharehol canAddBoard canFinalize).
Local Abbreviation ids_of :=
  (created_ids onlyOwner onlyBoard onlySharehol canAddBoard canFinalize).

Lemma run_consistent st bs txs :
  consistent st bs → consistent (runs st txs) (bs ++ history st txs).
Proof.
  revert st bs. induction txs as [| tx txs IH]; intros st bs Hc; simpl.
  - by rewrite app_nil_r.
  - pose proof (step_effect onlyOwner onlyBoard onlySharehol canAddBoard
                  canFinalize st tx) as Heff.
    apply (effect_consistent _ _ _ _ bs) in Heff; [| done].
    apply IH in Heff. revert Heff.
    destruct (ballot_of _ _ _ _ _ st tx); simpl.
    + by rewrite <- app_assoc.
    + by rewrite app_nil_r.
Qed.

Lemma step_vote_revert st s now id c f :
  vote onlySharehol st s now id c = Revert f →
  step st (mkTx s now (Vote id c)) = st.
Proof.
  intros Hf. unfold apply_tx, execute. cbn [tx_call tx_sender tx_time].
  destruct (negb _); [done |]. by rewrite Hf.
Qed.

Lemma vote_marks st s now id c st' :
  vote onlySharehol st s now id c = Ok st' → has_voted st' id s = true.
Proof.
  intros (_ & _ & p & _ & _ & _ & _ & _ & ->)%vote_Ok.
  unfold has_voted. simpl. by rewrite lookup_insert_eq.
Qed.

Lemma vote_again st s now id c :
  has_voted st id s = true →
  (∃ f, vote onlySharehol st s now id c = Revert f)
  ∧ (onlySharehol st s = Ok tt → is_Some (get_proposal st id) →
     vote onlySharehol st s now id c
     = Revert (Reason "Already voted on this proposal")).
Proof.
  intros Hv. split.
  - destruct (vote onlySharehol st s now id c) as [st' | f] eqn:E; [| by exists f].
    apply vote_Ok in E as (_ & Hnv & _). congruence.
  - intros Hg [p Hp%get_proposal_bound].
    unfold vote. unfold_monad. rewrite Hg, Hv. simpl.
    replace (0 <? id) with true by lia.
    by replace (id <=? Z.of_nat (length (proposals st))) with true by lia.
Qed.

Lemma vote_result st s now id c st' p :
  vote onlySharehol st s now id c = Ok st' →
  get_proposal st id = Some p →
  get_proposal st' id = Some (cast p c (shares (shareholder_of st s)))
  ∧ ∀ x, shareholder_of st' x = shareholder_of st x.
Proof.
  intros Hvote Hp.
  apply vote_Ok in Hvote as (_ & _ & p' & Hp' & _ & _ & _ & _ & ->).
  assert (p' = p) as -> by congruence. split; [| done].
  apply get_proposal_Some in Hp as [Hid Hp].
  apply get_proposal_Some. split; [done |]. simpl.
  apply list_lookup_insert_eq. by eapply lookup_lt_Some.
Qed.

(** C1. The threshold stored by [createProposal] is a function of the
    proposal type alone: 75 for type 2, 60 for type 1 and 50 for every
    other type; whatever transactions follow the creation, the proposal
    keeps that threshold. *)
Theorem createProposal_threshold st sender now _type _title _days st' id txs :
  createProposal onlyBoard st sender now _type _title _days = Ok (st', id) →
  ∃ p, get_proposal (runs st' txs) id = Some p
    ∧ threshold p = threshold_of_type _type
    ∧ (_type = 2 → threshold p = 75)
    ∧ (_type = 1 → threshold p = 60)
    ∧ (_type ≠ 2 → _type ≠ 1 → threshold p = 50).
Proof.
  intros (_ & -> & _ & ->)%createProposal_Ok.
  set (p0 := mkProposal _ _ _ _ _ _ _ _).
  set (st1 := emit _ _).
  assert (get_proposal st1 (Z.of_nat (length (proposals st)) + 1) = Some p0) as Hp0.
  { apply get_proposal_Some. split; [lia |]. simpl.
    replace (Z.to_nat _) with (length (proposals st)) by lia.
    apply list_lookup_middle. done. }
  destruct (evolves_get_proposal st1 (runs st1 txs) _ _
              (run_evolves _ _ _ _ _ st1 txs) Hp0)
    as (p & Hp & _ & _ & _ & _ & Hthr).
  exists p. split; [done |]. simpl in Hthr. rewrite <- Hthr.
  unfold threshold_of_type. repeat split; intros; subst; try done.
  replace (_type =? 2) with false by lia.
  by replace (_type =? 1) with false by lia.
Qed.

(** C2. Once an address has voted on a proposal, every later [vote] call by
    that address on that proposal aborts, whatever happened in between;
    past the access check the abort carries the reason "Already voted on
    this proposal"; the aborted transaction leaves the storage as it
    was. *)
Theorem vote_twice_rejected st sender now id choice st1 txs now' choice' :
  vote onlySharehol st sender now id choice = Ok st1 →
  (∃ f, vote onlySharehol (runs st1 txs) sender now' id choice' = Revert f)
  ∧ (onlySharehol (runs st1 txs) sender = Ok tt →
     vote onlySharehol (runs st1 txs) sender now' id choice'
     = Revert (Reason "Already voted on this proposal"))
  ∧ step (runs st1 txs) (mkTx sender now' (Vote id choice')) = runs st1 txs.
Proof.
  intros Hvote.
  pose proof (vote_marks _ _ _ _ _ _ Hvote) as Hv.
  apply (run_voted onlyOwner onlyBoard onlySharehol canAddBoard canFinalize
           _ txs) in Hv.
  destruct (vote_again (runs st1 txs) sender now' id choice' Hv) as [[f Hf] Hmsg].
  split; [by exists f |]. split.
  - intros Hg. apply Hmsg; [done |].
    apply vote_Ok in Hvote as (_ & _ & p & Hp & _ & _ & _ & _ & ->).
    set (st1 := emit _ _) in *.
    assert (get_proposal st1 id
            = Some (cast p choice (shares (shareholder_of st sender)))) as Hp1.
    { apply get_proposal_Some in Hp as [Hid Hp].
      apply get_proposal_Some. split; [done |]. simpl.
      apply list_lookup_insert_eq. by eapply lookup_lt_Some. }
    destruct (evolves_get_proposal st1 (runs st1 txs) _ _
                (run_evolves _ _ _ _ _ st1 txs) Hp1) as (p' & Hp' & _).
    by exists p'.
  - by eapply step_vote_revert.
Qed.

(** C3. A [vote] call made strictly after the proposal's deadline aborts,
    whether or not the proposal is still flagged active; past the access
    and double-vote checks the reason is "Voting period ended". *)
Theorem vote_after_deadline_rejected st sender now id choice p :
  get_proposal st id = Some p →
  deadline p < now →
  (∃ f, vote onlySharehol st sender now id choice = Revert f)
  ∧ (onlySharehol st sender = Ok tt → has_voted st id sender = false →
     vote onlySharehol st sender now id choice
     = Revert (Reason "Voting period ended"))
  ∧ step st (mkTx sender now (Vote id choice)) = st.
Proof.
  intros Hp Hlate.
  assert (∃ f, vote onlySharehol st sender now id choice = Revert f) as [f Hf].
  { destruct (vote onlySharehol st sender now id choice) as [st' | f] eqn:E;
      [| by exists f].
    apply vote_Ok in E as (_ & _ & p' & Hp' & _ & Hdl & _). simplify_eq. lia. }
  split; [by exists f |]. split.
  - intros Hg Hnv. pose proof (get_proposal_bound _ _ _ Hp).
    apply get_proposal_Some in Hp as [_ Hp].
    unfold vote. unfold_monad. rewrite Hg, Hnv, Hp. simpl.
    replace (0 <? id) with true by lia.
    replace (id <=? Z.of_nat (length (proposals st))) with true by lia. simpl.
    replace (now <=? deadline p) with false by lia.
    by rewrite andb_false_r.
  - by eapply step_vote_revert.
Qed.

(** C4, as the contract has it.  A [vote] call returns only if the
    proposal is flagged active and the current time is at most the
    deadline: the comparison is [block.timestamp <= p.deadline], so a vote
    cast at the deadline itself is accepted. *)
Theorem vote_only_while_open st sender now id choice st' :
  vote onlySharehol st sender now id choice = Ok st' →
  ∃ p, get_proposal st id = Some p ∧ active p = true ∧ now ≤ deadline p.
Proof.
  intros (_ & _ & p & Hp & Hact & Hdl & _)%vote_Ok. by exists p.
Qed.

(** C5. A [vote] call that returns was made by a caller the shareholder
    check lets through and changes the tallies of its proposal by the
    caller's share count at that moment: choice 1 adds it to [forVotes]
    only, choice 2 adds it to [againstVotes] only, choice 0 leaves both as
    they were.  No other proposal is touched. *)
Theorem vote_adds_shares st sender now id choice st' :
  vote onlySharehol st sender now id choice = Ok st' →
  onlySharehol st sender = Ok tt
  ∧ ∃ p p', get_proposal st id = Some p ∧ get_proposal st' id = Some p'
    ∧ (choice = 1 →
       forVotes p' = forVotes p + shares (shareholder_of st sender)
       ∧ againstVotes p' = againstVotes p)
    ∧ (choice = 2 →
       againstVotes p' = againstVotes p + shares (shareholder_of st sender)
       ∧ forVotes p' = forVotes p)
    ∧ (choice = 0 →
       forVotes p' = forVotes p ∧ againstVotes p' = againstVotes p)
    ∧ (∀ id', id' ≠ id → get_proposal st' id' = get_proposal st id').
Proof.
  intros (Hg & _ & p & Hp & _ & _ & _ & _ & ->)%vote_Ok.
  split; [done |].
  exists p, (cast p choice (shares (shareholder_of st sender))).
  pose proof (get_proposal_bound _ _ _ Hp) as Hb.
  pose proof Hp as [Hid Hpi]%get_proposal_Some.
  split; [done |]. split.
  { apply get_proposal_Some. split; [done |]. simpl.
    apply list_lookup_insert_eq. by eapply lookup_lt_Some. }
  rewrite forVotes_cast, againstVotes_cast.
  repeat split; intros; subst; try (repeat case_decide; simpl; lia).
  unfold get_proposal. simpl. rewrite length_insert.
  case_match; [| done]. apply list_lookup_insert_ne. lia.
Qed.

(** C6. In every state reached from deployment, the voters recorded for a
    proposal are exactly the senders of the votes that went through on it,
    each of them once; the two tallies together are the summed weights of
    those who chose for or against, each weight being the voter's share
    count when the vote was cast; so they are at most the summed weights
    of all who voted, a vote with any other choice adding nothing. *)
Theorem tally_bounded_by_voters o board txs id p :
  get_proposal (runs (deployed o board) txs) id = Some p →
  NoDup (b_voter <$> ballots_on id (history (deployed o board) txs))
  ∧ (∀ a, has_voted (runs (deployed o board) txs) id a = true
          ↔ a ∈ b_voter <$> ballots_on id (history (deployed o board) txs))
  ∧ forVotes p + againstVotes p
    = total_weight (filter (λ b, b_choice b = 1 ∨ b_choice b = 2)
                      (ballots_on id (history (deployed o board) txs)))
  ∧ forVotes p + againstVotes p
    ≤ total_weight (ballots_on id (history (deployed o board) txs)).
Proof.
  intros Hp.
  pose proof (run_consistent _ _ txs (consistent_deployed o board)) as Hc.
  rewrite app_nil_l in Hc.
  destruct Hc as [Hvoted Hall _ Honce Hweight _ Hfor Hagainst].
  set (bs := history (deployed o board) txs) in *.
  split; [by apply voters_distinct |]. split.
  { intros a. split.
    - intros Hv. apply Hall in Hv.
      apply list_elem_of_fmap in Hv as (b & Hk & Hb).
      unfold key in Hk. apply list_elem_of_fmap. exists b.
      split; [congruence |]. apply list_elem_of_filter. split; [congruence | done].
    - intros (b & -> & [<- Hb]%list_elem_of_filter)%list_elem_of_fmap.
      by apply Hvoted. }
  rewrite (Hfor _ _ Hp), (Hagainst _ _ Hp).
  destruct (total_weight_split (ballots_on id bs)) as [Heq Hle].
  { intros b [_ Hb]%list_elem_of_filter. by apply Hweight. }
  split; lia.
Qed.

(** C7. Ids are handed out in sequence from 1.  In a state reached from
    deployment in which [n - 1] calls of [createProposal] have returned,
    with ids [1 .. n - 1], the next call that returns is given id [n]; it
    appends the new proposal to the list, at index [n - 1], with deadline
    the current time plus the given number of days (in seconds).  From
    then on the proposal keeps its index and its terms, and the list never
    shrinks. *)
Theorem createProposal_sequential o board txs sender now _type _title _days st' id :
  createProposal onlyBoard (runs (deployed o board) txs)
                 sender now _type _title _days = Ok (st', id) →
  ids_of (deployed o board) txs = seqZ 1 (id - 1)
  ∧ id = Z.of_nat (length (ids_of (deployed o board) txs)) + 1
  ∧ ∃ p, proposals st' = proposals (runs (deployed o board) txs) ++ [p]
    ∧ proposals st' !! Z.to_nat (id - 1) = Some p
    ∧ get_proposal st' id = Some p
    ∧ deadline p = now + _days * ONE_DAY
    ∧ ∀ txs',
        evolves (proposals st') (proposals (runs st' txs'))
        ∧ ∃ p', get_proposal (runs st' txs') id = Some p' ∧ same_terms p p'.
Proof.
  intros (_ & -> & _ & ->)%createProposal_Ok.
  set (st := runs (deployed o board) txs).
  set (p := mkProposal _ _ _ _ _ _ _ _).
  set (st1 := emit _ _).
  assert (ids_of (deployed o board) txs
          = seqZ 1 (Z.of_nat (length (proposals st)) + 1 - 1)) as Hids.
  { rewrite (run_ids onlyOwner onlyBoard onlySharehol canAddBoard canFinalize).
    simpl. f_equal. fold st. lia. }
  assert (proposals st1 !! Z.to_nat (Z.of_nat (length (proposals st)) + 1 - 1)
          = Some p) as Hi.
  { simpl. replace (Z.to_nat _) with (length (proposals st)) by lia.
    by apply list_lookup_middle. }
  assert (get_proposal st1 (Z.of_nat (length (proposals st)) + 1) = Some p) as Hp.
  { apply get_proposal_Some. split; [lia | done]. }
  split; [done |]. split.
  { rewrite Hids, length_seqZ. lia. }
  exists p. repeat split; try done.
  - apply run_evolves.
  - eapply evolves_get_proposal; [apply run_evolves | done].
Qed.

(** C8. The tutorial's scenario.  On a proposal with threshold 50 and no
    votes yet, a holder of 50000 shares votes for, a holder of 30000 votes
    against and a holder of 20000 abstains.  [getResults], as the spec
    describes it, then returns (50000, 30000, true), and still does once
    the proposal has been finalized. *)
Theorem scenario_results st id p a b c ta tb tc st1 st2 st3 :
  get_proposal st id = Some p →
  threshold p = 50 → forVotes p = 0 → againstVotes p = 0 →
  shares (shareholder_of st a) = 50000 →
  shares (shareholder_of st b) = 30000 →
  shares (shareholder_of st c) = 20000 →
  vote onlySharehol st a ta id 1 = Ok st1 →
  vote onlySharehol st1 b tb id 2 = Ok st2 →
  vote onlySharehol st2 c tc id 0 = Ok st3 →
  getResults st3 id = Ok (50000, 30000, true)
  ∧ ∀ s now st4, finalize canFinalize st3 s now id = Ok st4 →
      getResults st4 id = Ok (50000, 30000, true).
Proof.
  intros Hp Hthr Hf Ha Hsa Hsb Hsc H1 H2 H3.
  destruct (vote_result _ _ _ _ _ _ _ H1 Hp) as [Hp1 Hk1].
  destruct (vote_result _ _ _ _ _ _ _ H2 Hp1) as [Hp2 Hk2].
  destruct (vote_result _ _ _ _ _ _ _ H3 Hp2) as [Hp3 _].
  rewrite !Hk2, !Hk1, Hsa, Hsb, Hsc in *.
  set (p3 := cast _ _ _) in Hp3.
  assert (∀ st q, get_proposal st id = Some q → threshold q = 50 →
            forVotes q = 50000 → againstVotes q = 30000 →
            getResults st id = Ok (50000, 30000, true)) as Hres.
  { intros st0 q Hq Ht Hfq Haq. pose proof (get_proposal_bound _ _ _ Hq).
    apply get_proposal_Some in Hq as [_ Hq].
    unfold getResults. unfold_monad. rewrite Hq.
    replace (0 <? id) with true by lia.
    replace (id <=? Z.of_nat (length (proposals st0))) with true by lia. simpl.
    unfold for_percentage. by rewrite Ht, Hfq, Haq. }
  assert (threshold p3 = 50 ∧ forVotes p3 = 50000 ∧ againstVotes p3 = 30000)
    as (Ht3 & Hf3 & Ha3).
  { unfold p3, cast. simpl. lia. }
  split; [by eapply Hres |].
  intros s now st4 (q & Hq & ->)%finalize_Ok.
  assert (q = p3) as -> by congruence.
  apply (Hres _ (close p3)); try done.
  apply get_proposal_Some in Hq as [Hid Hq].
  apply get_proposal_Some. split; [done |]. simpl.
  apply list_lookup_insert_eq. by eapply lookup_lt_Some.
Qed.

(** C9. Any choice other than 1 and 2 is taken as an abstention.  A call
    from a caller the shareholder check lets through, on an existing
    proposal that is active and not past its deadline, by an address that
    has not voted on it, returns; the proposal is left exactly as it was,
    tallies included; the address is recorded as having voted, and every
    later [vote] call by it on that proposal aborts. *)
Theorem vote_other_choice_abstains st sender now id choice p :
  onlySharehol st sender = Ok tt →
  get_proposal st id = Some p →
  has_voted st id sender = false →
  active p = true →
  now ≤ deadline p →
  choice ≠ 1 → choice ≠ 2 →
  ∃ st', vote onlySharehol st sender now id choice = Ok st'
    ∧ get_proposal st' id = Some p
    ∧ (∀ p', get_proposal st' id = Some p' →
         forVotes p' = forVotes p ∧ againstVotes p' = againstVotes p)
    ∧ has_voted st' id sender = true
    ∧ ∀ txs now' choice',
        ∃ f, vote onlySharehol (runs st' txs) sender now' id choice' = Revert f.
Proof.
  intros Hg Hp Hnv Hact Hdl Hc1 Hc2.
  assert (vote onlySharehol st sender now id choice
          = Ok (emit (set_proposal (set_voted st id sender) (Z.to_nat (id - 1))
                        (cast p choice (shares (shareholder_of st sender))))
                  (VoteAdd id sender))) as Hvote by by apply vote_accepted.
  eexists. split; [exact Hvote |].
  destruct (vote_result _ _ _ _ _ _ _ Hvote Hp) as [Hp' _].
  assert (cast p choice (shares (shareholder_of st sender)) = p) as Hsame.
  { unfold cast. replace (choice =? 1) with false by lia.
    by replace (choice =? 2) with false by lia. }
  split; [congruence |].
  split; [intros p' Hq; by assert (p' = p) as -> by congruence |].
  pose proof (vote_marks _ _ _ _ _ _ Hvote) as Hv.
  split; [done |].
  intros txs now' choice'.
  apply (run_voted onlyOwner onlyBoard onlySharehol canAddBoard canFinalize
           _ txs) in Hv.
  by destruct (vote_again _ _ now' _ choice' Hv) as [Hf _].
Qed.

End Claims.

(** ** The scenario, checked *)

Example opened_proposal : get_proposal (Scenario.opened 0) 1 = Some (Scenario.fresh 0).
Proof. vm_compute. reflexivity. Qed.

Example voted_proposal :
  get_proposal
    (Access.run (Scenario.opened 0)
       [Scenario.alice_for; Scenario.bob_against; Scenario.carol_abstains]) 1
  = Some (mkProposal 0 "Q4 2024 Budget Approval" 2 605800 true 50000 30000 50).
Proof. vm_compute. reflexivity. Qed.

Lemma createProposal_threshold_witness :
  ∃ p, get_proposal
         (Access.run (Scenario.opened 2)
            [Scenario.alice_for; mkTx 2 700000 (Finalize 1)]) 1 = Some p
    ∧ threshold p = threshold_of_type 2
    ∧ (2 = 2 → threshold p = 75)
    ∧ (2 = 1 → threshold p = 60)
    ∧ (2 ≠ 2 → 2 ≠ 1 → threshold p = 50).
Proof.
  apply (createProposal_threshold Access.onlyOwner Access.onlyBoard
           Access.onlySharehol Access.onlyOwner Access.canFinalize
           Scenario.registered 2 1000 2 "Q4 2024 Budget Approval" 7
           (Scenario.opened 2) 1).
  vm_compute. reflexivity.
Defined.

Lemma vote_twice_rejected_witness :
  vote Access.onlySharehol (Scenario.opened 0) 3 2000 1 1
  = Ok (Scenario.step (Scenario.opened 0) Scenario.alice_for)
  ∧ vote Access.onlySharehol
      (Access.run (Scenario.step (Scenario.opened 0) Scenario.alice_for)
         [Scenario.bob_against]) 3 2002 1 2
    = Revert (Reason "Already voted on this proposal").
Proof.
  assert (vote Access.onlySharehol (Scenario.opened 0) 3 2000 1 1
          = Ok (Scenario.step (Scenario.opened 0) Scenario.alice_for)) as H
    by (vm_compute; reflexivity).
  split; [exact H |].
  apply (vote_twice_rejected Access.onlyOwner Access.onlyBoard
           Access.onlySharehol Access.onlyOwner Access.canFinalize
           _ _ _ _ _ _ [Scenario.bob_against] 2002 2 H).
  vm_compute. reflexivity.
Defined.

Lemma vote_after_deadline_rejected_witness :
  active (Scenario.fresh 0) = true
  ∧ vote Access.onlySharehol (Scenario.opened 0) 3 605801 1 1
    = Revert (Reason "Voting period ended").
Proof.
  split; [reflexivity |].
  apply (vote_after_deadline_rejected Access.onlyOwner Access.onlyBoard
           Access.onlySharehol Access.onlyOwner Access.canFinalize
           (Scenario.opened 0) 3 605801 1 1 (Scenario.fresh 0)).
  - vm_compute. reflexivity.
  - simpl. lia.
  - vm_compute. reflexivity.
  - vm_compute. reflexivity.
Defined.

(** C4, as the claim words it, fails: at the very second of the deadline
    the proposal still accepts a vote, although the current time is not
    strictly less than the deadline. *)
Lemma vote_at_deadline_accepted :
  get_proposal (Scenario.opened 0) 1 = Some (Scenario.fresh 0)
  ∧ deadline (Scenario.fresh 0) = 605800
  ∧ vote Access.onlySharehol (Scenario.opened 0) 3 605800 1 1
    = Ok (Scenario.step (Scenario.opened 0) (mkTx 3 605800 (Vote 1 1)))
  ∧ ¬ (605800 < deadline (Scenario.fresh 0)).
Proof.
  split; [vm_compute; reflexivity |]. split; [reflexivity |].
  split; [vm_compute; reflexivity |]. simpl. lia.
Qed.

Lemma vote_only_while_open_witness :
  ∃ p, get_proposal (Scenario.opened 0) 1 = Some p
    ∧ active p = true ∧ 605800 ≤ deadline p.
Proof.
  apply (vote_only_while_open Access.onlySharehol (Scenario.opened 0) 3 605800 1 1
           (Scenario.step (Scenario.opened 0) (mkTx 3 605800 (Vote 1 1)))).
  vm_compute. reflexivity.
Defined.

Lemma vote_adds_shares_witness :
  Access.onlySharehol (Scenario.opened 0) 4 = Ok tt
  ∧ ∃ p p', get_proposal (Scenario.opened 0) 1 = Some p
    ∧ get_proposal (Scenario.step (Scenario.opened 0) Scenario.bob_against) 1
      = Some p'
    ∧ (2 = 1 → forVotes p' = forVotes p
                 + shares (shareholder_of (Scenario.opened 0) 4)
               ∧ againstVotes p' = againstVotes p)
    ∧ (2 = 2 → againstVotes p' = againstVotes p
                 + shares (shareholder_of (Scenario.opened 0) 4)
               ∧ forVotes p' = forVotes p)
    ∧ (2 = 0 → forVotes p' = forVotes p ∧ againstVotes p' = againstVotes p)
    ∧ (∀ id', id' ≠ 1 →
         get_proposal (Scenario.step (Scenario.opened 0) Scenario.bob_against) id'
         = get_proposal (Scenario.opened 0) id').
Proof.
  apply (vote_adds_shares Access.onlySharehol (Scenario.opened 0) 4 2001 1 2).
  vm_compute. reflexivity.
Defined.

Lemma tally_bounded_by_voters_witness :
  let txs := Scenario.setup
             ++ [Scenario.open_proposal 0; Scenario.alice_for;
                 Scenario.bob_against; Scenario.carol_abstains;
                 Scenario.alice_for] in
  b_voter <$> ballots_on 1 (Access.ballots (deployed 1 ∅) txs) = [3; 4; 5]
  ∧ total_weight (ballots_on 1 (Access.ballots (deployed 1 ∅) txs)) = 100000
  ∧ 50000 + 30000
    ≤ total_weight (ballots_on 1 (Access.ballots (deployed 1 ∅) txs)).
Proof.
  intros txs.
  split; [vm_compute; reflexivity |]. split; [vm_compute; reflexivity |].
  apply (tally_bounded_by_voters Access.onlyOwner Access.onlyBoard
           Access.onlySharehol Access.onlyOwner Access.canFinalize
           1 ∅ txs 1
           (mkProposal 0 "Q4 2024 Budget Approval" 2 605800 true 50000 30000 50)).
  vm_compute. reflexivity.
Defined.

Lemma createProposal_sequential_witness :
  Access.created_ids (deployed 1 ∅) (Scenario.setup ++ [Scenario.open_proposal 0])
  = seqZ 1 (2 - 1)
  ∧ createProposal Access.onlyBoard (Scenario.opened 0) 2 5000 1 "Board seat" 3
    = Ok (Scenario.step (Scenario.opened 0)
            (mkTx 2 5000 (CreateProposal 1 "Board seat" 3)), 2).
Proof.
  assert (createProposal Access.onlyBoard
            (Access.run (deployed 1 ∅)
               (Scenario.setup ++ [Scenario.open_proposal 0]))
            2 5000 1 "Board seat" 3
          = Ok (Scenario.step (Scenario.opened 0)
                  (mkTx 2 5000 (CreateProposal 1 "Board seat" 3)), 2)) as H
    by (vm_compute; reflexivity).
  split; [| exact H].
  apply (createProposal_sequential Access.onlyOwner Access.onlyBoard
           Access.onlySharehol Access.onlyOwner Access.canFinalize
           _ _ _ _ _ _ _ _ _ _ H).
Defined.

Lemma scenario_results_witness :
  getResults
    (Access.run (Scenario.opened 0)
       [Scenario.alice_for; Scenario.bob_against; Scenario.carol_abstains]) 1
  = Ok (50000, 30000, true).
Proof.
  apply (scenario_results Access.onlySharehol Access.canFinalize
           (Scenario.opened 0) 1 (Scenario.fresh 0) 3 4 5 2000 2001 2002
           (Access.run (Scenario.opened 0) [Scenario.alice_for])
           (Access.run (Scenario.opened 0)
              [Scenario.alice_for; Scenario.bob_against])
           (Access.run (Scenario.opened 0)
              [Scenario.alice_for; Scenario.bob_against;
               Scenario.carol_abstains]));
    vm_compute; reflexivity.
Defined.

Lemma vote_other_choice_abstains_witness :
  ∃ st', vote Access.onlySharehol (Scenario.opened 0) 5 2002 1 255 = Ok st'
    ∧ get_proposal st' 1 = Some (Scenario.fresh 0)
    ∧ (∀ p', get_proposal st' 1 = Some p' →
         forVotes p' = forVotes (Scenario.fresh 0)
         ∧ againstVotes p' = againstVotes (Scenario.fresh 0))
    ∧ has_voted st' 1 5 = true
    ∧ ∀ txs now' choice',
        ∃ f, vote Access.onlySharehol (Access.run st' txs) 5 now' 1 choice'
             = Revert f.
Proof.
  apply (vote_other_choice_abstains Access.onlyOwner Access.onlyBoard
           Access.onlySharehol Access.onlyOwner Access.canFinalize
           (Scenario.opened 0) 5 2002 1 255 (Scenario.fresh 0));
    try (vm_compute; reflexivity); try lia.
  simpl. lia.
Defined.

(** ** The voting page *)

Section VotingPage.

Import Frontend.

Variable VOTE_CHOICE_LABELS : Z → string.
Variable onlySharehol : State → Z → Result unit.

Local Abbreviation handleVote := (Frontend.handleVote VOTE_CHOICE_LABELS).
Local Abbreviation perform_all := (Frontend.perform_all onlySharehol).

Lemma attempt_quiet throws body :
  existsb is_SendVote body = false →
  existsb is_SendVote (fst (attempt throws body)) = false.
Proof.
  induction body as [| b body IH]; simpl; [done |].
  destruct (throws b); simpl; [done |].
  intros [Hb Hr]%orb_false_iff. apply orb_false_iff. split; [done | by apply IH].
Qed.

Lemma attempt_toast throws body :
  existsb is_final_toast body = true →
  snd (attempt throws body) = None →
  existsb is_final_toast (fst (attempt throws body)) = true.
Proof.
  induction body as [| b body IH]; simpl; [done |].
  destruct (throws b); simpl; [done |].
  intros [Hb | Hr]%orb_true_iff Hn; apply orb_true_iff; [by left |].
  right. by apply IH.
Qed.

Lemma perform_all_ledger w acts :
  existsb is_SendVote acts = false → ledger (perform_all w acts) = ledger w.
Proof.
  unfold perform_all. revert w.
  induction acts as [| a acts IH]; intros w; simpl; [done |].
  intros [Ha Hr]%orb_false_iff. rewrite IH by done.
  by destruct a.
Qed.

Lemma handleVote_no_SendVote isConnected loaded throws proposalId voteChoice :
  existsb is_SendVote (handleVote isConnected loaded throws proposalId voteChoice)
  = false.
Proof.
  unfold handleVote. destruct (negb isConnected || negb loaded); [done |].
  rewrite !existsb_app.
  rewrite attempt_quiet by done.
  by destruct (snd _).
Qed.

(** C10. Whatever the proposal and the choice, whether or not the wallet
    is connected and whichever step fails, [handleVote] never sends a
    [vote] to the contract and leaves the ledger as it found it; it always
    ends up showing a success or a failure toast; when the wallet is
    connected and nothing fails it shows the loading toast, waits 2000 ms,
    shows the success toast and closes the confirmation panel. *)
Theorem handleVote_simulated w isConnected loaded throws proposalId voteChoice :
  existsb is_SendVote (handleVote isConnected loaded throws proposalId voteChoice)
  = false
  ∧ ledger (perform_all w
              (handleVote isConnected loaded throws proposalId voteChoice))
    = ledger w
  ∧ existsb is_final_toast
      (handleVote isConnected loaded throws proposalId voteChoice) = true
  ∧ handleVote true true (λ _, None) proposalId voteChoice
    = [ SetVotingInProgress (Some proposalId);
        ToastLoading ("Submitting " ++ VOTE_CHOICE_LABELS voteChoice
                      ++ " vote...")%string;
        Sleep 2000;
        ToastSuccess ("Vote submitted successfully! ("
                      ++ VOTE_CHOICE_LABELS voteChoice ++ ")")%string;
        SetShowVoteModal false;
        SetSelectedProposal None;
        SetVotingInProgress None ].
Proof.
  pose proof (handleVote_no_SendVote isConnected loaded throws proposalId
                voteChoice) as Hno.
  split; [done |]. split; [by apply perform_all_ledger |].
  split; [| done].
  unfold handleVote. destruct (negb isConnected || negb loaded); [done |].
  rewrite !existsb_app.
  destruct (snd (attempt throws _)) as [e |] eqn:He.
  - simpl. by rewrite !orb_true_r.
  - rewrite attempt_toast; [by rewrite orb_true_r | done..].
Qed.

End VotingPage.

Lemma handleVote_simulated_witness :
  Frontend.handleVote (λ _, "For"%string) true true (λ _, None) 1 1
  = [ Frontend.SetVotingInProgress (Some 1);
      Frontend.ToastLoading "Submitting For vote...";
      Frontend.Sleep 2000;
      Frontend.ToastSuccess "Vote submitted successfully! (For)";
      Frontend.SetShowVoteModal false;
      Frontend.SetSelectedProposal None;
      Frontend.SetVotingInProgress None ]
  ∧ Frontend.ledger
      (Frontend.perform_all Access.onlySharehol
         (Frontend.mkWorld (Frontend.mkPage None true (Some 1))
            (Scenario.opened 0) 3 2000 [])
         (Frontend.handleVote (λ _, "For"%string) true true (λ _, None) 1 1))
    = Scenario.opened 0.
Proof.
  pose proof (handleVote_simulated (λ _, "For"%string) Access.onlySharehol
                (Frontend.mkWorld (Frontend.mkPage None true (Some 1))
                   (Scenario.opened 0) 3 2000 [])
                true true (λ _, None) 1 1) as (_ & Hledger & _ & Hacts).
  split; [exact Hacts | exact Hledger].
Defined.

(** * More of the ledger *)

Section MoreOfTheLedger.

Variable onlyOwner onlyBoard onlySharehol canAddBoard : State → Z → Result unit.
Variable canFinalize : State → Z → Z → Z → Result unit.

Local Abbreviation exec :=
  (execute onlyOwner onlyBoard onlySharehol canAddBoard canFinalize).
Local Abbreviation step :=
  (apply_tx onlyOwner onlyBoard onlySharehol canAddBoard canFinalize).
Local Abbreviation runs :=
  (run onlyOwner onlyBoard onlySharehol canAddBoard canFinalize).
Local Abbreviation history :=
  (ballots onlyOwner onlyBoard onlySharehol canAddBoard canFinalize).

(** To show that every transaction relates the storage before and after
    by [P], it is enough to look at each entry point when it returns. *)
Lemma step_cases (P : State → State → Prop) :
  (∀ st, P st st) →
  (∀ st s n t st', initCompany onlyOwner st s n t = Ok st' → P st st') →
  (∀ st s a st', addBoard canAddBoard st s a = Ok st' → P st st') →
  (∀ st s a n t st', is_uint MAX_UINT32 n = true →
     addShareholder onlyBoard st s a n t = Ok st' → P st st') →
  (∀ st s now t ti d st' id,
     createProposal onlyBoard st s now t ti d = Ok (st', id) → P st st') →
  (∀ st s now id c st', vote onlySharehol st s now id c = Ok st' → P st st') →
  (∀ st s now id st', finalize canFinalize st s now id = Ok st' → P st st') →
  ∀ st tx, P st (step st tx).
Proof.
  intros Hrefl Hinit Hboard Hreg Hcreate Hvote Hfin st tx.
  unfold apply_tx. destruct (exec st tx) as [st' | f] eqn:E; [| done].
  unfold execute in E. destruct (well_typed _) eqn:Hwt; [| done].
  destruct (tx_call tx) as [n t | a | a n t | t ti d | id c | id];
    simpl in E, Hwt; eauto.
  - apply andb_true_iff in Hwt as [_ Hwt]. eauto.
  - unfold_monad.
    destruct (createProposal _ _ _ _ _ _ _) as [[st1 id] |] eqn:Hc; [| done].
    simplify_eq. simpl. eauto.
Qed.

Lemma run_preserves (P : State → Prop) :
  (∀ st tx, P st → P (step st tx)) → ∀ txs st, P st → P (runs st txs).
Proof.
  intros Hstep txs. induction txs as [| tx txs IH]; intros st Hst; simpl; eauto.
Qed.

Lemma initCompany_fresh st s n t st' :
  initCompany onlyOwner st s n t = Ok st' → initialized st = false.
Proof.
  unfold initCompany. unfold_monad.
  destruct (onlyOwner st s) as [[] |]; [| done].
  by destruct (initialized st).
Qed.

Lemma step_settled n t st tx : settled n t st → settled n t (step st tx).
Proof.
  revert st tx. apply (step_cases (λ st st', settled n t st → settled n t st')).
  - done.
  - intros st s n' t' st' Hi [Hinit _]. apply initCompany_fresh in Hi. congruence.
  - by intros st s a st' ->%addBoard_Ok.
  - by intros st s a n' t' st' _ ->%addShareholder_Ok.
  - by intros st s now ty ti d st' id (_ & _ & _ & ->)%createProposal_Ok.
  - by intros st s now id c st' (_ & _ & p & _ & _ & _ & _ & _ & ->)%vote_Ok.
  - by intros st s now id st' (p & _ & ->)%finalize_Ok.
Qed.

(** X1. The company is initialized once and for all.  After [initCompany]
    has returned, whatever transactions follow, the contract stays
    initialized with the name and the number of shares given then, and every
    further [initCompany] call aborts, past the owner check with the reason
    "Already initialized". *)
Theorem initCompany_once st s n t st1 txs s' n' t' :
  initCompany onlyOwner st s n t = Ok st1 →
  initialized (runs st1 txs) = true
  ∧ companyName (runs st1 txs) = n
  ∧ totalShares (runs st1 txs) = t
  ∧ (∃ f, initCompany onlyOwner (runs st1 txs) s' n' t' = Revert f)
  ∧ (onlyOwner (runs st1 txs) s' = Ok tt →
     initCompany onlyOwner (runs st1 txs) s' n' t'
     = Revert (Reason "Already initialized")).
Proof.
  intros ->%initCompany_Ok.
  set (st1 := emit _ _).
  assert (settled n t (runs st1 txs)) as (Hi & Hn & Ht).
  { apply run_preserves; [intros; by apply step_settled | done]. }
  repeat split; try done.
  - destruct (initCompany onlyOwner (runs st1 txs) s' n' t') as [st2 | f] eqn:E;
      [| by exists f].
    apply initCompany_fresh in E. congruence.
  - intros Hg. unfold initCompany. unfold_monad. by rewrite Hg, Hi.
Qed.


Lemma step_registered st tx a :
  sh_active (shareholder_of st a) = true →
  sh_active (shareholder_of (step st tx) a) = true.
Proof.
  revert st tx.
  apply (step_cases (λ st st', sh_active (shareholder_of st a) = true →
                               sh_active (shareholder_of st' a) = true)).
  - done.
  - by intros st s n' t' st' ->%initCompany_Ok.
  - by intros st s b st' ->%addBoard_Ok.
  - intros st s b n' t' st' _ ->%addShareholder_Ok.
    unfold shareholder_of. simpl. rewrite lookup_insert. by case_decide.
  - by intros st s now ty ti d st' id (_ & _ & _ & ->)%createProposal_Ok.
  - by intros st s now id c st' (_ & _ & p & _ & _ & _ & _ & _ & ->)%vote_Ok.
  - by intros st s now id st' (p & _ & ->)%finalize_Ok.
Qed.

(** X3. Shareholders are never removed.  An address registered by
    [addShareholder] is an active shareholder in every later state, and its
    entry stays in the registry. *)
Theorem shareholder_never_removed st s a n name st' txs :
  addShareholder onlyBoard st s a n name = Ok st' →
  sh_active (shareholder_of (runs st' txs) a) = true
  ∧ is_Some (shareholders (runs st' txs) !! a).
Proof.
  intros ->%addShareholder_Ok. set (st1 := emit _ _).
  assert (sh_active (shareholder_of (runs st1 txs) a) = true) as Hact.
  { apply (run_preserves (λ st, sh_active (shareholder_of st a) = true)).
    - intros. by apply step_registered.
    - unfold shareholder_of. simpl. by rewrite lookup_insert_eq. }
  split; [done |]. unfold shareholder_of in Hact.
  by destruct (shareholders (runs st1 txs) !! a).
Qed.

Lemma step_within_uint32 st tx : within_uint32 st → within_uint32 (step st tx).
Proof.
  revert st tx.
  apply (step_cases (λ st st', within_uint32 st → within_uint32 st')).
  - done.
  - by intros st s n' t' st' ->%initCompany_Ok.
  - by intros st s b st' ->%addBoard_Ok.
  - intros st s b n' t' st' Hn ->%addShareholder_Ok [Hsh Hp].
    split; [| done]. intros a. unfold shareholder_of. simpl.
    rewrite lookup_insert. case_decide; [| apply Hsh].
    unfold is_uint in Hn. simpl. lia.
  - intros st s now ty ti d st' id (_ & _ & _ & ->)%createProposal_Ok [Hsh Hp].
    split; [done |]. simpl. intros i p [Hi | [_ Hi]]%lookup_app_Some; [eauto |].
    apply list_lookup_singleton_Some in Hi as [_ <-]. simpl.
    unfold MAX_UINT32. lia.
  - intros st s now id c st'
      (_ & _ & p & [_ Hp0]%get_proposal_Some & _ & _ & H1 & H2 & ->)%vote_Ok
      [Hsh Hp].
    split; [done |]. simpl. intros i q Hq.
    destruct (decide (i = Z.to_nat (id - 1))) as [-> | Hne].
    + rewrite list_lookup_insert_eq in Hq by by eapply lookup_lt_Some.
      simplify_eq. rewrite forVotes_cast, againstVotes_cast.
      destruct (Hp _ _ Hp0) as [Hf Ha]. specialize (Hsh s).
      repeat case_decide; lia.
    + rewrite list_lookup_insert_ne in Hq by done. eauto.
  - intros st s now id st' (p & [_ Hp0]%get_proposal_Some & ->)%finalize_Ok [Hsh Hp].
    split; [done |]. simpl. intros i q Hq.
    destruct (decide (i = Z.to_nat (id - 1))) as [-> | Hne].
    + rewrite list_lookup_insert_eq in Hq by by eapply lookup_lt_Some.
      simplify_eq. simpl. eauto.
    + rewrite list_lookup_insert_ne in Hq by done. eauto.
Qed.

(** X4. The tallies never leave their type.  In every state reached from
    deployment, every proposal's [forVotes] and [againstVotes], and every
    registered share count, lie between 0 and 2^32 - 1. *)
Theorem tallies_within_uint32 o board txs :
  within_uint32 (runs (deployed o board) txs).
Proof.
  apply run_preserves; [intros; by apply step_within_uint32 |].
  split; [| done]. intros a. unfold shareholder_of, MAX_UINT32. simpl.
  rewrite lookup_empty. simpl. lia.
Qed.

(** X5. A vote that would push a tally past 2^32 - 1 is refused.  When
    every check passes but adding the caller's shares to the chosen tally
    overflows [uint32], [vote] aborts with [Panic(0x11)]; the transaction
    changes nothing, so the caller has not used up a vote. *)
Theorem vote_overflow_reverts st s now id c p :
  onlySharehol st s = Ok tt →
  has_voted st id s = false →
  get_proposal st id = Some p →
  active p = true →
  now ≤ deadline p →
  (c = 1 ∧ MAX_UINT32 < forVotes p + shares (shareholder_of st s))
  ∨ (c = 2 ∧ MAX_UINT32 < againstVotes p + shares (shareholder_of st s)) →
  vote onlySharehol st s now id c = Revert (Panic 17)
  ∧ step st (mkTx s now (Vote id c)) = st
  ∧ has_voted (step st (mkTx s now (Vote id c))) id s = false.
Proof.
  intros Hg Hv Hp Hact Hdl Hover.
  assert (vote onlySharehol st s now id c = Revert (Panic 17)) as Hrev.
  { pose proof (get_proposal_bound _ _ _ Hp).
    apply get_proposal_Some in Hp as [_ Hp].
    unfold vote. unfold_monad. rewrite Hg, Hv, Hp, Hact. simpl.
    replace (0 <? id) with true by lia.
    replace (id <=? Z.of_nat (length (proposals st))) with true by lia.
    replace (now <=? deadline p) with true by lia. simpl.
    unfold shareholder_of in *. simpl.
    destruct Hover as [[-> Ho] | [-> Ho]]; simpl.
    - by replace (_ <=? MAX_UINT32) with false by lia.
    - by replace (_ <=? MAX_UINT32) with false by lia. }
  split; [done |].
  rewrite (step_vote_revert onlyOwner onlyBoard onlySharehol canAddBoard
             canFinalize _ _ _ _ _ _ Hrev).
  done.
Qed.

(** X6. The array access in [vote] is guarded.  Past the shareholder
    check, [vote] never aborts with the out-of-bounds panic [Panic(0x32)]:
    an id that names no proposal (0, or beyond the number of proposals) is
    turned down with the reason "Invalid proposal ID". *)
Theorem vote_index_guarded st s now id c :
  onlySharehol st s = Ok tt →
  vote onlySharehol st s now id c ≠ Revert (Panic 50)
  ∧ (get_proposal st id = None →
     vote onlySharehol st s now id c = Revert (Reason "Invalid proposal ID")).
Proof.
  intros Hg. unfold vote, get_proposal. unfold_monad. rewrite Hg.
  destruct (_ && _) eqn:Hid.
  - apply andb_true_iff in Hid as [Hid1 Hid2].
    assert (is_Some (proposals st !! Z.to_nat (id - 1))) as [p Hp]
      by (apply lookup_lt_is_Some; lia).
    rewrite Hp. split; [| done].
    repeat case_match; congruence.
  - split; [congruence | done].
Qed.

(** X7. When [vote] returns.  A call goes through exactly when the caller
    passes the shareholder check, the id names a proposal, the caller has
    not voted on it, the proposal is active, the time is not past the
    deadline, and the tally the choice adds to does not overflow. *)
Theorem vote_succeeds_iff st s now id c :
  (∃ st', vote onlySharehol st s now id c = Ok st')
  ↔ onlySharehol st s = Ok tt
    ∧ has_voted st id s = false
    ∧ ∃ p, get_proposal st id = Some p
      ∧ active p = true
      ∧ now ≤ deadline p
      ∧ (c = 1 → forVotes p + shares (shareholder_of st s) ≤ MAX_UINT32)
      ∧ (c = 2 → againstVotes p + shares (shareholder_of st s) ≤ MAX_UINT32).
Proof.
  split.
  - intros [st' (Hg & Hv & p & Hp & Hact & Hdl & H1 & H2 & _)%vote_Ok].
    split; [done |]. split; [done |]. by exists p.
  - intros (Hg & Hv & p & Hp & Hact & Hdl & H1 & H2).
    eexists. by apply (vote_accepted onlySharehol st s now id c p).
Qed.

(** X8. When [createProposal] returns.  For a time and a number of days
    that are not negative, a call from a caller the board check lets
    through returns exactly when the deadline [now + days * 86400] fits in
    [uint256], and aborts with [Panic(0x11)] otherwise.  Nothing else is
    asked: not that the company is initialized, not that the type is one
    of the six known ones, not that the title is non-empty. *)
Theorem createProposal_succeeds_iff st s now t ti d :
  onlyBoard st s = Ok tt →
  0 ≤ now → 0 ≤ d →
  Z.of_nat (length (proposals st)) < MAX_UINT256 →
  ((∃ r, createProposal onlyBoard st s now t ti d = Ok r)
   ↔ now + d * ONE_DAY ≤ MAX_UINT256)
  ∧ (MAX_UINT256 < now + d * ONE_DAY →
     createProposal onlyBoard st s now t ti d = Revert (Panic 17)).
Proof.
  intros Hg Hnow Hd Hlen. unfold createProposal. unfold_monad. rewrite Hg.
  replace (_ + 1 <=? MAX_UINT256) with true by lia.
  unfold ONE_DAY in *.
  destruct (d * 86400 <=? MAX_UINT256) eqn:Hmul.
  - destruct (now + d * 86400 <=? MAX_UINT256) eqn:Hadd.
    + split; [| lia]. split; [lia | intros _; eauto].
    + split; [| done]. split; [by intros [r ?] | lia].
  - split; [| done]. split; [by intros [r ?] | lia].
Qed.

Lemma step_log st tx :
  vote_events (events (step st tx))
  = vote_events (events st)
    ++ (key <$> option_list
                  (ballot_of onlyOwner onlyBoard onlySharehol canAddBoard
                             canFinalize st tx))
  ∧ proposal_events (events (step st tx))
    = proposal_events (events st) ++ option_list (created onlyBoard st tx).
Proof.
  unfold ballot_of, created, apply_tx, vote_events, proposal_events.
  destruct (exec st tx) as [st' | f] eqn:E; unfold execute in E.
  2: { destruct (well_typed _); destruct (tx_call tx); simpl;
         rewrite ?app_nil_r; try done.
       unfold_monad. destruct (createProposal _ _ _ _ _ _ _); [done |].
       by rewrite !app_nil_r. }
  destruct (well_typed _) eqn:Hwt; [| done].
  destruct (tx_call tx) as [n t | a | a n t | t ti d | id c | id];
    simpl in E, Hwt.
  - apply initCompany_Ok in E as ->. simpl. by rewrite !omap_app, !app_nil_r.
  - apply addBoard_Ok in E as ->. simpl. by rewrite !app_nil_r.
  - apply addShareholder_Ok in E as ->. simpl. by rewrite !omap_app, !app_nil_r.
  - unfold_monad.
    destruct (createProposal _ _ _ _ _ _ _) as [[st1 id] |] eqn:Hc; [| done].
    simplify_eq. simpl.
    apply createProposal_Ok in Hc as (_ & -> & _ & ->). simpl.
    by rewrite !omap_app, !app_nil_r.
  - apply vote_Ok in E as (_ & _ & p & _ & _ & _ & _ & _ & ->). simpl.
    by rewrite !omap_app, !app_nil_r.
  - apply finalize_Ok in E as (p & _ & ->). simpl. by rewrite !app_nil_r.
Qed.

Lemma run_log st txs :
  vote_events (events (runs st txs))
  = vote_events (events st) ++ (key <$> history st txs)
  ∧ proposal_events (events (runs st txs))
    = proposal_events (events st)
      ++ created_ids onlyOwner onlyBoard onlySharehol canAddBoard canFinalize
                     st txs.
Proof.
  revert st. induction txs as [| tx txs IH]; intros st; simpl.
  - by rewrite !app_nil_r.
  - destruct (IH (step st tx)) as [IHv IHp]. rewrite IHv, IHp.
    destruct (step_log st tx) as [-> ->].
    destruct (ballot_of _ _ _ _ _ st tx), (created _ st tx); simpl;
      by rewrite <- !app_assoc.
Qed.

(** X9. The event log tells the history.  In every state reached from
    deployment, the [ProposalAdd] events of the log carry, in order, the
    ids 1, 2, ... up to the number of proposals, one per proposal; the
    [VoteAdd] events carry, in order, the (proposal, voter) pairs of the
    votes that went through, and no pair appears twice. *)
Theorem event_log_tells_history o board txs :
  proposal_events (events (runs (deployed o board) txs))
  = seqZ 1 (Z.of_nat (length (proposals (runs (deployed o board) txs))))
  ∧ vote_events (events (runs (deployed o board) txs))
    = key <$> history (deployed o board) txs
  ∧ NoDup (vote_events (events (runs (deployed o board) txs))).
Proof.
  destruct (run_log (deployed o board) txs) as [Hv Hp]. simpl in Hv, Hp.
  rewrite Hv, Hp.
  rewrite (run_ids onlyOwner onlyBoard onlySharehol canAddBoard canFinalize).
  simpl. split; [f_equal; lia |]. split; [done |].
  pose proof (run_consistent onlyOwner onlyBoard onlySharehol canAddBoard
                canFinalize _ _ txs (consistent_deployed o board)) as Hc.
  by destruct Hc.
Qed.




(** X11. The voting window is never extended.  Once [createProposal] has
    returned, the deadline [now + days * 86400] it set is final: whatever
    transactions follow, every [vote] call on that proposal made after
    that time aborts.  In particular a proposal created with 0 days can
    only be voted on at the very time it was created. *)
Theorem voting_window_final st s now t ti d st' id txs v tv c :
  createProposal onlyBoard st s now t ti d = Ok (st', id) →
  now + d * ONE_DAY < tv →
  ∃ f, vote onlySharehol (runs st' txs) v tv id c = Revert f.
Proof.
  intros (_ & -> & _ & ->)%createProposal_Ok Hlate.
  set (p0 := mkProposal _ _ _ _ _ _ _ _). set (st1 := emit _ _).
  assert (get_proposal st1 (Z.of_nat (length (proposals st)) + 1) = Some p0) as Hp0.
  { apply get_proposal_Some. split; [lia |]. simpl.
    replace (Z.to_nat _) with (length (proposals st)) by lia.
    by apply list_lookup_middle. }
  destruct (evolves_get_proposal st1 (runs st1 txs) _ _
              (run_evolves _ _ _ _ _ st1 txs) Hp0)
    as (p & Hp & _ & _ & _ & Hdl & _).
  destruct (vote onlySharehol (runs st1 txs) v tv _ c) as [st2 | f] eqn:E;
    [| by exists f].
  apply vote_Ok in E as (_ & _ & p' & Hp' & _ & Hle & _).
  simplify_eq. simpl in Hdl. lia.
Qed.


End MoreOfTheLedger.

(** ** The ledger's further properties, on the scenario *)

Lemma initCompany_once_witness :
  initialized (Scenario.registered) = true
  ∧ companyName (Scenario.registered) = "Acme Corporation"%string
  ∧ totalShares (Scenario.registered) = 1000000
  ∧ (∃ f, initCompany Access.onlyOwner Scenario.registered 1 "Other" 5 = Revert f)
  ∧ (Access.onlyOwner Scenario.registered 1 = Ok tt →
     initCompany Access.onlyOwner Scenario.registered 1 "Other" 5
     = Revert (Reason "Already initialized")).
Proof.
  apply (initCompany_once Access.onlyOwner Access.onlyBoard Access.onlySharehol
           Access.onlyOwner Access.canFinalize
           (deployed 1 ∅) 1 "Acme Corporation" 1000000
           (Scenario.step (deployed 1 ∅)
              (mkTx 1 100 (InitCompany "Acme Corporation" 1000000)))
           (tail Scenario.setup) 1 "Other" 5).
  vm_compute. reflexivity.
Defined.


Lemma shareholder_never_removed_witness :
  let st := Scenario.step (deployed 1 ∅) (mkTx 1 101 (AddBoard 2)) in
  let st' := Scenario.step st (mkTx 2 102 (AddShareholder 3 50000 "Alice Johnson")) in
  let txs := [Scenario.open_proposal 0; Scenario.alice_for;
              mkTx 2 700000 (Finalize 1)] in
  sh_active (shareholder_of (Access.run st' txs) 3) = true
  ∧ is_Some (shareholders (Access.run st' txs) !! 3).
Proof.
  intros st st' txs.
  apply (shareholder_never_removed Access.onlyOwner Access.onlyBoard
           Access.onlySharehol Access.onlyOwner Access.canFinalize
           st 2 3 50000 "Alice Johnson" st' txs).
  vm_compute. reflexivity.
Defined.

Lemma vote_overflow_reverts_witness :
  get_proposal Whales.after_alice 1 = Some Whales.tallied
  ∧ vote Access.onlySharehol Whales.after_alice 4 2001 1 1 = Revert (Panic 17)
  ∧ Scenario.step Whales.after_alice (mkTx 4 2001 (Vote 1 1)) = Whales.after_alice
  ∧ has_voted (Scenario.step Whales.after_alice (mkTx 4 2001 (Vote 1 1))) 1 4
    = false.
Proof.
  split; [vm_compute; reflexivity |].
  apply (vote_overflow_reverts Access.onlyOwner Access.onlyBoard
           Access.onlySharehol Access.onlyOwner Access.canFinalize
           Whales.after_alice 4 2001 1 1 Whales.tallied);
    try (vm_compute; reflexivity).
  - simpl. lia.
  - left. split; [done |]. vm_compute. reflexivity.
Defined.

Lemma vote_index_guarded_witness :
  vote Access.onlySharehol (Scenario.opened 0) 3 2000 2 1 ≠ Revert (Panic 50)
  ∧ (get_proposal (Scenario.opened 0) 2 = None →
     vote Access.onlySharehol (Scenario.opened 0) 3 2000 2 1
     = Revert (Reason "Invalid proposal ID")).
Proof.
  apply (vote_index_guarded Access.onlySharehol (Scenario.opened 0) 3 2000 2 1).
  vm_compute. reflexivity.
Defined.

Lemma vote_succeeds_iff_witness :
  ∃ st', vote Access.onlySharehol (Scenario.opened 0) 3 2000 1 1 = Ok st'.
Proof.
  apply (vote_succeeds_iff Access.onlySharehol (Scenario.opened 0) 3 2000 1 1).
  split; [vm_compute; reflexivity |]. split; [vm_compute; reflexivity |].
  exists (Scenario.fresh 0). split; [vm_compute; reflexivity |].
  split; [reflexivity |]. split; [simpl; lia |].
  split; intros _; vm_compute; discriminate.
Defined.

Lemma createProposal_succeeds_iff_witness :
  ((∃ r, createProposal Access.onlyBoard Scenario.registered 2 1000 0
           "Q4 2024 Budget Approval" (2 ^ 256) = Ok r)
   ↔ 1000 + 2 ^ 256 * ONE_DAY ≤ MAX_UINT256)
  ∧ (MAX_UINT256 < 1000 + 2 ^ 256 * ONE_DAY →
     createProposal Access.onlyBoard Scenario.registered 2 1000 0
       "Q4 2024 Budget Approval" (2 ^ 256) = Revert (Panic 17)).
Proof.
  apply (createProposal_succeeds_iff Access.onlyBoard Scenario.registered 2 1000 0
           "Q4 2024 Budget Approval" (2 ^ 256)).
  - vm_compute. reflexivity.
  - lia.
  - lia.
  - vm_compute. reflexivity.
Defined.


Lemma voting_window_final_witness :
  ∃ f, vote Access.onlySharehol
         (Access.run
            (Scenario.step Scenario.registered
               (mkTx 2 1000 (CreateProposal 0 "Snap vote" 0)))
            [mkTx 2 1000 (AddShareholder 6 10 "Dan")]) 3 1001 1 1
       = Revert f.
Proof.
  apply (voting_window_final Access.onlyOwner Access.onlyBoard
           Access.onlySharehol Access.onlyOwner Access.canFinalize
           Scenario.registered 2 1000 0 "Snap vote" 0
           (Scenario.step Scenario.registered
              (mkTx 2 1000 (CreateProposal 0 "Snap vote" 0))) 1).
  - vm_compute. reflexivity.
  - unfold ONE_DAY. lia.
Defined.


(** * More of the voting page *)

Section MoreOfThePage.

Import Frontend.

Variable VOTE_CHOICE_LABELS : Z → string.
Variable onlySharehol : State → Z → Result unit.

Local Abbreviation handleVote := (Frontend.handleVote VOTE_CHOICE_LABELS).
Local Abbreviation perform_all := (Frontend.perform_all onlySharehol).



(** X15. Opening the panel and voting.  "Vote Now" on a proposal opens the
    confirmation panel for it; a vote cast there that runs without error
    shows the loading toast and then the success toast, and leaves the
    panel closed, no proposal selected, nothing in progress; two seconds
    have passed; the ledger is as it was. *)
Theorem open_then_vote w proposalId voteChoice :
  modal_open (page (perform_all w (openVoteModal proposalId))) = true
  ∧ selectedProposal (page (perform_all w (openVoteModal proposalId)))
    = Some proposalId
  ∧ page (perform_all w
            (openVoteModal proposalId
             ++ handleVote true true (λ _, None) proposalId voteChoice))
    = mkPage None false None
  ∧ shown (perform_all w
             (openVoteModal proposalId
              ++ handleVote true true (λ _, None) proposalId voteChoice))
    = shown w
      ++ [ ToastLoading ("Submitting " ++ VOTE_CHOICE_LABELS voteChoice
                         ++ " vote...")%string;
           ToastSuccess ("Vote submitted successfully! ("
                         ++ VOTE_CHOICE_LABELS voteChoice ++ ")")%string ]
  ∧ clock (perform_all w
             (openVoteModal proposalId
              ++ handleVote true true (λ _, None) proposalId voteChoice))
    = clock w + 2
  ∧ ledger (perform_all w
              (openVoteModal proposalId
               ++ handleVote true true (λ _, None) proposalId voteChoice))
    = ledger w.
Proof.
  unfold Frontend.handleVote, Frontend.perform_all, openVoteModal, modal_open.
  simpl. repeat split; try done.
  by rewrite <- app_assoc.
Qed.

End MoreOfThePage.

(** * The proposal list *)

Section MoreOfTheList.

Import ProposalList.

Variable toLowerCase : string → string.
Variable includes : string → string → bool.
Variable PROPOSAL_TYPE_LABELS : Z → string.

Local Abbreviation matches :=
  (ProposalList.matches toLowerCase includes PROPOSAL_TYPE_LABELS).
Local Abbreviation filteredProposals :=
  (ProposalList.filteredProposals toLowerCase includes PROPOSAL_TYPE_LABELS).

Lemma tab_is_all t : tab_id t = "all"%string ↔ t = All.
Proof. split; [by destruct t | by intros ->]. Qed.

(** X16. What the list shows.  The filtered list is the proposal list with
    entries left out, in the same order; a proposal is shown exactly when
    it is in the list, its status is the selected tab (any status under
    'all') and, unless the search box is empty, its title, its
    description or its type label contains the search term, case
    ignored. *)
Theorem filteredProposals_shows mockProposals selectedTab searchTerm :
  filteredProposals mockProposals selectedTab searchTerm
    `sublist_of` mockProposals
  ∧ ∀ p, p ∈ filteredProposals mockProposals selectedTab searchTerm
       ↔ p ∈ mockProposals
         ∧ (selectedTab = All ∨ mp_status p = tab_id selectedTab)
         ∧ (searchTerm = EmptyString ∨ matches searchTerm p = true).
Proof.
  unfold ProposalList.filteredProposals. split.
  - repeat case_bool_decide;
      repeat (etrans; [apply sublist_filter; apply _ |]); done.
  - intros p.
    destruct (bool_decide_reflect (tab_id selectedTab ≠ "all"%string)) as [Ht | Ht];
      destruct (bool_decide_reflect (searchTerm ≠ EmptyString)) as [Hs | Hs];
      rewrite ?list_elem_of_filter.
    + rewrite tab_is_all in Ht. intuition.
    + rewrite tab_is_all in Ht. apply dec_stable in Hs. intuition.
    + apply dec_stable, tab_is_all in Ht. intuition.
    + apply dec_stable, tab_is_all in Ht. apply dec_stable in Hs. intuition.
Qed.

Lemma filter_swap {A} (P Q : A → Prop)
    `{!∀ x, Decision (P x)} `{!∀ x, Decision (Q x)} (l : list A) :
  filter P (filter Q l) = filter Q (filter P l).
Proof.
  rewrite !list_filter_filter. apply list_filter_iff. intros x. tauto.
Qed.

Lemma filter_twice {A} (P : A → Prop) `{!∀ x, Decision (P x)} (l : list A) :
  filter P (filter P l) = filter P l.
Proof.
  rewrite list_filter_filter. apply list_filter_iff. intros x. tauto.
Qed.

(** X17. Tab and search compose.  Picking the tab first and searching in
    what it shows, or searching first and picking the tab among the hits,
    gives the list that the page shows for the tab and the term together;
    and filtering what is shown once more changes nothing. *)
Theorem filteredProposals_compose mockProposals selectedTab searchTerm :
  filteredProposals (filteredProposals mockProposals selectedTab EmptyString)
                    All searchTerm
  = filteredProposals mockProposals selectedTab searchTerm
  ∧ filteredProposals (filteredProposals mockProposals All searchTerm)
                      selectedTab EmptyString
    = filteredProposals mockProposals selectedTab searchTerm
  ∧ filteredProposals (filteredProposals mockProposals selectedTab searchTerm)
                      selectedTab searchTerm
    = filteredProposals mockProposals selectedTab searchTerm.
Proof.
  unfold ProposalList.filteredProposals. simpl.
  destruct (bool_decide (tab_id selectedTab ≠ "all"%string));
    destruct (bool_decide (searchTerm ≠ EmptyString));
    repeat split; try done.
  - apply filter_swap.
  - rewrite (filter_swap (λ p, mp_status p = _)). by rewrite !filter_twice.
  - apply filter_twice.
  - apply filter_twice.
Qed.

Lemma status_partition (l : list MockProposal) :
  length l
  = (length (filter (λ p, mp_status p = "active"%string) l)
     + length (filter (λ p, mp_status p = "pending"%string) l)
     + length (filter (λ p, mp_status p = "completed"%string) l)
     + length (filter off_tabs l))%nat.
Proof.
  induction l as [| p l IH]; [done |].
  rewrite !filter_cons. unfold off_tabs at 1.
  repeat case_decide; simpl; try lia; try congruence.
  all: exfalso; tauto.
Qed.

(** X18. The counts on the tabs.  The number a tab carries is the length
    of the list the tab shows when the search box is empty; the count of
    'all' is the sum of the counts of 'active', 'pending' and 'completed'
    plus the number of proposals with any other status, which appear
    under 'all' only. *)
Theorem tab_counts mockProposals :
  (∀ t, tab_count mockProposals t
        = length (filteredProposals mockProposals t EmptyString))
  ∧ tab_count mockProposals All
    = (tab_count mockProposals Active + tab_count mockProposals Pending
       + tab_count mockProposals Completed
       + length (filter off_tabs mockProposals))%nat
  ∧ ∀ p t s, p ∈ filteredProposals mockProposals t s → off_tabs p → t = All.
Proof.
  split; [by intros [] |]. split; [apply status_partition |].
  intros p t s Hp (Ha & Hp' & Hc).
  unfold ProposalList.filteredProposals in Hp.
  destruct t; [done | exfalso..]; simpl in Hp;
    case_bool_decide;
    repeat (apply list_elem_of_filter in Hp as [? Hp]); done.
Qed.

(** X19. The search ignores case.  Two non-empty search terms with the
    same lower-case form show the same list. *)
Theorem search_ignores_case mockProposals selectedTab term1 term2 :
  term1 ≠ EmptyString → term2 ≠ EmptyString →
  toLowerCase term1 = toLowerCase term2 →
  filteredProposals mockProposals selectedTab term1
  = filteredProposals mockProposals selectedTab term2.
Proof.
  intros H1 H2 Hlow. unfold ProposalList.filteredProposals.
  rewrite (bool_decide_eq_true_2 (term1 ≠ EmptyString)) by done.
  rewrite (bool_decide_eq_true_2 (term2 ≠ EmptyString)) by done.
  apply list_filter_iff. intros p. unfold ProposalList.matches.
  by rewrite Hlow.
Qed.

End MoreOfTheList.

(** * The test helpers *)

Section MoreOfTheHelpers.

Import TestHelpers.

Variable onlyBoard : State → Z → Result unit.

(** X20. [createTestProposal] sends one [createProposal].  Without a
    wallet it throws "MetaMask not installed" and the ledger is not
    touched.  When it hands back a receipt, the ledger has exactly one
    proposal more, at the end of the list: of type 1, with the helper's
    title, proposed by the wallet's account, active, without votes, with
    threshold 60 and a deadline 604800 seconds (7 days) after the block
    time.  When the transaction reverts it throws, with the reason if
    there is one, and the ledger is as before. *)
Theorem createTestProposal_sends_one signer now ledger :
  createTestProposal onlyBoard false signer now ledger
  = Thrown (Some "MetaMask not installed"%string) ledger
  ∧ (∀ ledger', createTestProposal onlyBoard true signer now ledger
                = Receipt ledger' →
       proposals ledger'
       = proposals ledger
         ++ [mkProposal 1 "Test Proposal: Elect New Board Member" signer
                        (now + 604800) true 0 0 60]
       ∧ shareholders ledger' = shareholders ledger
       ∧ voted ledger' = voted ledger)
  ∧ (∀ m ledger', createTestProposal onlyBoard true signer now ledger
                  = Thrown m ledger' →
       ledger' = ledger
       ∧ ∃ f, createProposal onlyBoard ledger signer now 1
                "Test Proposal: Elect New Board Member" 7 = Revert f
            ∧ m = revert_message f).
Proof.
  unfold createTestProposal. simpl. split; [done |].
  destruct (createProposal onlyBoard ledger signer now 1 _ 7)
    as [[st' id] | f] eqn:E.
  - split; [| done]. intros ledger' [= <-]. simpl.
    apply createProposal_Ok in E as (_ & _ & _ & ->). simpl.
    by repeat split.
  - split; [done |]. intros m ledger' [= <- <-]. split; [done |]. by exists f.
Qed.

End MoreOfTheHelpers.

(** * Multi-signature approval *)

Section MoreOfTheBoard.

Import MultiSig.

Variable onlyBoard : State → Z → Result unit.

Local Abbreviation approveProposal := (MultiSig.approveProposal onlyBoard).
Local Abbreviation approve := (MultiSig.approve onlyBoard).
Local Abbreviation approve_all := (MultiSig.approve_all onlyBoard).
Local Abbreviation approved := (MultiSig.approved onlyBoard).

Lemma approveProposal_Ok b s id b' :
  approveProposal b s id = Ok b' →
  onlyBoard (ledger b) s = Ok tt
  ∧ has_approved b id s = false
  ∧ approvals b id + 1 ≤ MAX_UINT8
  ∧ proposalApprovals b' = <[(id, s) := true]> (proposalApprovals b)
  ∧ approvalCount b' = <[id := approvals b id + 1]> (approvalCount b)
  ∧ ((approvals b id + 1 < 2 ∧ ledger b' = ledger b)
     ∨ (2 ≤ approvals b id + 1
        ∧ ∃ p, at_index (proposals (ledger b)) id = Some p
             ∧ ledger b' = set_proposal (ledger b) (Z.to_nat id) (activate p))).
Proof.
  unfold MultiSig.approveProposal. unfold_monad. intros H.
  destruct (onlyBoard (ledger b) s) as [[] |]; [| done].
  destruct (negb _) eqn:Hn in H; [| done]. apply negb_true_iff in Hn.
  destruct (_ <=? MAX_UINT8) eqn:Hc in H; [| done].
  split; [done |]. split; [done |]. split; [lia |].
  destruct (2 <=? _) eqn:H2 in H.
  - destruct (at_index _ _) as [p |] eqn:Hp; [| done]. simplify_eq. simpl.
    split; [done |]. split; [done |]. right. split; [lia |]. by exists p.
  - simplify_eq. simpl. split; [done |]. split; [done |]. left. split; [lia | done].
Qed.

Lemma approve_keeps b call id a :
  has_approved b id a = true → has_approved (approve b call) id a = true.
Proof.
  unfold MultiSig.approve.
  destruct (approveProposal b call.1 call.2) as [b' |] eqn:E; [| done].
  apply approveProposal_Ok in E as (_ & _ & _ & Hg & _).
  unfold has_approved. rewrite Hg, lookup_insert. by case_decide.
Qed.

Lemma approve_all_keeps b calls id a :
  has_approved b id a = true → has_approved (approve_all b calls) id a = true.
Proof.
  unfold MultiSig.approve_all. revert b.
  induction calls as [| call calls IH]; intros b Hb; simpl; [done |].
  apply IH. by apply approve_keeps.
Qed.

(** X21. One approval per board member.  Once a member's approval of an
    index has gone through, every later approval of that index by the
    same member aborts, whatever approvals were given in between; past the
    board check the reason is "Already approved". *)
Theorem approveProposal_once b s id b1 calls :
  approveProposal b s id = Ok b1 →
  (∃ f, approveProposal (approve_all b1 calls) s id = Revert f)
  ∧ (onlyBoard (ledger (approve_all b1 calls)) s = Ok tt →
     approveProposal (approve_all b1 calls) s id
     = Revert (Reason "Already approved")).
Proof.
  intros (_ & _ & _ & Hg & _)%approveProposal_Ok.
  assert (has_approved (approve_all b1 calls) id s = true) as Hyes.
  { apply approve_all_keeps. unfold has_approved.
    by rewrite Hg, lookup_insert_eq. }
  split.
  - destruct (approveProposal (approve_all b1 calls) s id) as [b2 | f] eqn:E;
      [| by exists f].
    apply approveProposal_Ok in E as (_ & Hno & _). congruence.
  - intros Hb. unfold MultiSig.approveProposal. unfold_monad.
    by rewrite Hb, Hyes.
Qed.

Lemma counted_unapproved st : counted (unapproved st) [].
Proof.
  split; try done.
  - intros id a. unfold has_approved. simpl. rewrite lookup_empty. simpl.
    split; [done | by intros ?%elem_of_nil].
  - constructor.
Qed.

Lemma approve_counted b given s id b' :
  counted b given → approveProposal b s id = Ok b' →
  counted b' (given ++ [(s, id)]).
Proof.
  intros [Hgiven Honce Hcount Hbound Hactive]
         (_ & Hno & Hmax & Hg & Hc & Hl)%approveProposal_Ok.
  assert (∀ id', approvals b' id'
                 = if decide (id = id') then approvals b id + 1
                   else approvals b id') as Hnew.
  { intros id'. unfold approvals at 1. rewrite Hc, lookup_insert.
    by case_decide. }
  split.
  - intros id' a. unfold has_approved. rewrite Hg, lookup_insert, elem_of_app.
    rewrite list_elem_of_singleton. case_decide as Hk.
    + simplify_eq. simpl. split; [intros _; by right | done].
    + fold (has_approved b id' a). rewrite Hgiven.
      split; [by left | intros [Hin | Heq]; [done | congruence]].
  - apply NoDup_app. split; [done |]. split; [| apply NoDup_singleton].
    intros c Hin ->%list_elem_of_singleton. apply Hgiven in Hin. congruence.
  - intros id'. rewrite Hnew, filter_app, length_app, filter_cons, filter_nil.
    rewrite !Hcount. simpl.
    repeat case_decide; simpl in *; subst; try lia; congruence.
  - intros id'. rewrite Hnew. case_decide; [lia | apply Hbound].
  - intros id' H2. rewrite Hnew in H2.
    destruct Hl as [[Hlt ->] | (Hge & p & Hp & ->)].
    + case_decide; [lia | by apply Hactive].
    + simpl. unfold at_index in *. destruct (0 <=? id) eqn:Hid; [| done].
      destruct (decide (id = id')) as [<- | Hne].
      * exists (activate p). rewrite Hid. split; [| done].
        apply list_lookup_insert_eq. by eapply lookup_lt_Some.
      * destruct (Hactive id' H2) as (q & Hq & Hact). exists q. split; [| done].
        destruct (0 <=? id') eqn:Hid'; [| done].
        rewrite list_lookup_insert_ne by lia. done.
Qed.

Lemma approve_all_counted calls b given :
  counted b given →
  counted (approve_all b calls) (given ++ approved b calls).
Proof.
  unfold MultiSig.approve_all. revert b given.
  induction calls as [| [s id] calls IH]; intros b given Hc; simpl.
  - by rewrite app_nil_r.
  - unfold MultiSig.approve at 2. simpl.
    destruct (approveProposal b s id) as [b' | f] eqn:E; [| by apply IH].
    replace (given ++ (s, id) :: MultiSig.approved onlyBoard b' calls)
      with ((given ++ [(s, id)]) ++ MultiSig.approved onlyBoard b' calls)
      by (by rewrite <- app_assoc).
    apply IH. by eapply approve_counted.
Qed.

Lemma approve_all_length b calls :
  length (proposals (ledger (approve_all b calls)))
  = length (proposals (ledger b)).
Proof.
  unfold MultiSig.approve_all. revert b.
  induction calls as [| call calls IH]; intros b; simpl; [done |].
  rewrite IH. unfold MultiSig.approve.
  destruct (approveProposal b call.1 call.2) as [b' |] eqn:E; [| done].
  apply approveProposal_Ok in E
    as (_ & _ & _ & _ & _ & [[_ ->] | (_ & p & _ & ->)]); [done |].
  simpl. apply length_insert.
Qed.

(** X22. The count is the number of approvers.  Starting without
    approvals, after any run of [approveProposal] calls the count stored
    for an index is the number of calls on it that went through, each by a
    different member; those members, and no others, are on record as
    having approved it; and the count fits its [uint8]. *)
Theorem approvals_counted st calls id :
  NoDup (approved (unapproved st) calls)
  ∧ (∀ a, has_approved (approve_all (unapproved st) calls) id a = true
          ↔ (a, id) ∈ approved (unapproved st) calls)
  ∧ approvals (approve_all (unapproved st) calls) id
    = Z.of_nat (length (filter (λ c, snd c = id)
                               (approved (unapproved st) calls)))
  ∧ 0 ≤ approvals (approve_all (unapproved st) calls) id ≤ MAX_UINT8.
Proof.
  pose proof (approve_all_counted calls _ _ (counted_unapproved st)) as Hc.
  rewrite app_nil_l in Hc.
  destruct Hc as [Hgiven Honce Hcount Hbound _].
  split; [done |]. split; [apply Hgiven |]. split; [apply Hcount |].
  split; [rewrite Hcount; lia | apply Hbound].
Qed.

(** X23. Two approvals mean an active proposal.  Starting without
    approvals, whenever the count of an index has reached 2 the proposal
    at that index of the list exists and is active; the index counts from
    0, so it is the proposal that [vote] knows under the id one higher.
    For an index beyond the list the second approval aborts, so its count
    never exceeds 1.  Approvals never add or remove a proposal. *)
Theorem two_approvals_activate st calls id :
  (2 ≤ approvals (approve_all (unapproved st) calls) id →
   ∃ p, get_proposal (ledger (approve_all (unapproved st) calls)) (id + 1)
        = Some p
        ∧ active p = true)
  ∧ (Z.of_nat (length (proposals st)) ≤ id →
     approvals (approve_all (unapproved st) calls) id ≤ 1)
  ∧ length (proposals (ledger (approve_all (unapproved st) calls)))
    = length (proposals st).
Proof.
  pose proof (approve_all_counted calls _ _ (counted_unapproved st)) as Hc.
  destruct Hc as [_ _ _ _ Hactive].
  pose proof (approve_all_length (unapproved st) calls) as Hlen. simpl in Hlen.
  assert (2 ≤ approvals (approve_all (unapproved st) calls) id →
          ∃ p, proposals (ledger (approve_all (unapproved st) calls))
                 !! Z.to_nat id = Some p
               ∧ 0 ≤ id ∧ active p = true) as Hidx.
  { intros H2. destruct (Hactive id H2) as (p & Hp & Hact).
    unfold at_index in Hp. destruct (0 <=? id) eqn:Hid; [| done].
    exists p. split; [done |]. split; [lia | done]. }
  split; [| split; [| done]].
  - intros H2. destruct (Hidx H2) as (p & Hp & Hid & Hact).
    exists p. split; [| done]. apply get_proposal_Some. split; [lia |].
    by replace (id + 1 - 1) with id by lia.
  - intros Hout.
    destruct (decide (2 ≤ approvals (approve_all (unapproved st) calls) id))
      as [H2 | ]; [| lia].
    destruct (Hidx H2) as (p & Hp & Hid & _).
    apply lookup_lt_Some in Hp. lia.
Qed.

End MoreOfTheBoard.

(** ** The further properties, on sample data *)


Lemma search_ignores_case_witness :
  ProposalList.mp_id
    <$> ProposalList.filteredProposals Samples.lower Samples.contains
          Samples.labels Samples.mocks ProposalList.All "budget"
  = [1; 4]
  ∧ ProposalList.filteredProposals Samples.lower Samples.contains Samples.labels
      Samples.mocks ProposalList.All "BUDGET"
    = ProposalList.filteredProposals Samples.lower Samples.contains
        Samples.labels Samples.mocks ProposalList.All "budget".
Proof.
  split; [vm_compute; reflexivity |].
  apply (search_ignores_case Samples.lower Samples.contains Samples.labels
           Samples.mocks ProposalList.All "BUDGET" "budget");
    [discriminate | discriminate | vm_compute; reflexivity].
Defined.

Lemma createTestProposal_sends_one_witness :
  proposals
    (Scenario.step Scenario.registered
       (mkTx 2 1000
          (CreateProposal 1 "Test Proposal: Elect New Board Member" 7)))
  = proposals Scenario.registered
    ++ [mkProposal 1 "Test Proposal: Elect New Board Member" 2
                   (1000 + 604800) true 0 0 60].
Proof.
  destruct (createTestProposal_sends_one Access.onlyBoard 2 1000
              Scenario.registered) as (_ & Hreceipt & _).
  destruct (Hreceipt
              (Scenario.step Scenario.registered
                 (mkTx 2 1000
                    (CreateProposal 1 "Test Proposal: Elect New Board Member" 7))))
    as (Hp & _); [vm_compute; reflexivity | exact Hp].
Defined.

Lemma approveProposal_once_witness :
  MultiSig.approveProposal Access.onlyBoard
    (MultiSig.approve_all Access.onlyBoard
       (MultiSig.approve Access.onlyBoard
          (MultiSig.unapproved Samples.two_members) (2, 0))
       [(7, 0)]) 2 0
  = Revert (Reason "Already approved").
Proof.
  apply (approveProposal_once Access.onlyBoard
           (MultiSig.unapproved Samples.two_members) 2 0
           (MultiSig.approve Access.onlyBoard
              (MultiSig.unapproved Samples.two_members) (2, 0))
           [(7, 0)]);
    vm_compute; reflexivity.
Defined.

Lemma two_approvals_activate_witness :
  MultiSig.approvals
    (MultiSig.approve_all Access.onlyBoard
       (MultiSig.unapproved Samples.two_members) Samples.approval_calls) 0
  = 2
  ∧ MultiSig.approvals
      (MultiSig.approve_all Access.onlyBoard
         (MultiSig.unapproved Samples.two_members) Samples.approval_calls) 5
    ≤ 1
  ∧ ∃ p, get_proposal
           (MultiSig.ledger
              (MultiSig.approve_all Access.onlyBoard
                 (MultiSig.unapproved Samples.two_members)
                 Samples.approval_calls)) (0 + 1) = Some p
         ∧ active p = true.
Proof.
  destruct (two_approvals_activate Access.onlyBoard Samples.two_members
              Samples.approval_calls 0) as (Hact & _ & _).
  destruct (two_approvals_activate Access.onlyBoard Samples.two_members
              Samples.approval_calls 5) as (_ & Hout & _).
  split; [vm_compute; reflexivity |].
  split; [apply Hout; vm_compute; discriminate |].
  apply Hact. vm_compute. discriminate.
Defined.
